(** * ant-vercel: credential rotation and protocol translation

    A shallow embedding of the token manager (lib/token-manager.ts), of the
    response translators and streaming re-encoders (lib/upstream.ts and
    app/api/v1/messages/route.ts) and of the request validation of the two
    POST handlers, followed by the properties of the specification that
    concern them.

    Conventions.
    - JavaScript numbers that hold counters, second and millisecond clocks
      and token counts are integers far below 2^53; they are modelled by
      [nat] (the rotation cursor, which only ever grows by one) and [Z].
    - An optional field [f?: T] is a field of type [option T]; [x || d] and
      [if (x)] follow JavaScript truthiness on the type at hand.
    - The module-level variables of a TypeScript file are the fields of a
      state record that every function takes and returns; the console is a
      list of entries inside that state.
    - What the outside world answers (the clock, the environment, the token
      endpoint) is read from a [World] record: the k-th reading of
      [Date.now()] is [Date_now w k], the k-th call of the token endpoint is
      [fetch_token w k]. *)

From Stdlib Require Import ZArith QArith Lia Permutation Sorted.
From stdpp Require Import base option list strings.

Local Open Scope string_scope.
Local Open Scope list_scope.
Local Open Scope Z_scope.

(** JavaScript truthiness of a string: every string but the empty one. *)
Definition truthy (s : string) : bool :=
  match s with
  | EmptyString => false
  | String _ _ => true
  end.

(** Truthiness of a value that is a string or [undefined] / [null]. *)
Definition truthy_opt (o : option string) : bool :=
  match o with
  | Some s => truthy s
  | None => false
  end.

(** Truthiness of an optional boolean flag. *)
Definition flag_set (o : option bool) : bool :=
  match o with
  | Some b => b
  | None => false
  end.

(** [n || 0] on a number that may be absent. *)
Definition or0 (o : option Z) : Z := default 0 o.

(** [s || ''] on a string that may be absent. *)
Definition or_empty (o : option string) : string := default "" o.

(** ** lib/token-manager.ts *)

Module TokenManager.

Record AccountToken := {
  access_token : string;
  refresh_token : string;
  expires_in : Z;
  expiry_timestamp : Z;
  project_id : option string
}.

Record Account := {
  id : string;
  email : string;
  token : AccountToken;
  disabled : option bool;
  proxy_disabled : option bool;
  subscription_tier : option string
}.

(** An element of the array that [JSON.parse] returns: an account object,
    or JSON [null], on which every property access throws a TypeError. *)
Inductive elem :=
| Obj (a : Account)
| Null.

(** [process.env.ACCOUNTS_JSON], told apart by what line 32-33 make of it.
    Texts whose value is not an array at all (an object, a number, ...) are
    left out of the model. *)
Inductive blob :=
| EnvUnset                     (* absent or empty: the default '[]' is parsed *)
| EnvMalformed                 (* JSON.parse throws a SyntaxError *)
| EnvArray (l : list elem).    (* JSON.parse returns this array *)

(** The body of a success answer of the token endpoint, with the two fields
    that lines 129-131 read; a body without them is outside the model. *)
Record TokenData := {
  data_access_token : string;
  data_expires_in : Z
}.

(** What one call of [fetch] on the token endpoint comes to. *)
Inductive FetchResult :=
| TransportFailure                   (* fetch rejects *)
| HttpError (body : string)          (* response.ok is false *)
| HttpOk (data : option TokenData).  (* response.ok; None: the body is not JSON *)

Inductive log_entry :=
| Log_loaded (n : nat)
| Err_load_failed
| Err_no_accounts
| Log_expiring (mail : string)
| Err_missing_client
| Err_refresh_failed (mail : string) (body : string)
| Log_refreshed (mail : string)
| Err_refresh_error (mail : string).

Record World := {
  ACCOUNTS_JSON : blob;
  GOOGLE_CLIENT_ID : option string;
  GOOGLE_CLIENT_SECRET : option string;
  Date_now : nat -> Z;                          (* milliseconds *)
  fetch_token : nat -> string -> FetchResult    (* by call number and refresh token *)
}.

(** The three module variables of lines 23-25, then the bookkeeping of the
    model: how often the clock and the endpoint were consulted, and the
    console (latest entry first). *)
Record State := {
  accounts : list elem;
  currentIndex : nat;
  lastRefreshTime : Z;
  clock_reads : nat;
  fetches : nat;
  console : list log_entry
}.

Definition initial : State :=
  {| accounts := []; currentIndex := 0; lastRefreshTime := 0;
     clock_reads := 0; fetches := 0; console := [] |}.

Definition set_accounts (l : list elem) (st : State) : State :=
  {| accounts := l; currentIndex := currentIndex st;
     lastRefreshTime := lastRefreshTime st; clock_reads := clock_reads st;
     fetches := fetches st; console := console st |}.

Definition set_lastRefreshTime (t : Z) (st : State) : State :=
  {| accounts := accounts st; currentIndex := currentIndex st;
     lastRefreshTime := t; clock_reads := clock_reads st;
     fetches := fetches st; console := console st |}.

Definition incr_currentIndex (st : State) : State :=
  {| accounts := accounts st; currentIndex := S (currentIndex st);
     lastRefreshTime := lastRefreshTime st; clock_reads := clock_reads st;
     fetches := fetches st; console := console st |}.

Definition say (e : log_entry) (st : State) : State :=
  {| accounts := accounts st; currentIndex := currentIndex st;
     lastRefreshTime := lastRefreshTime st; clock_reads := clock_reads st;
     fetches := fetches st; console := e :: console st |}.

(** [Date.now()] *)
Definition now_ms (w : World) (st : State) : Z * State :=
  (Date_now w (clock_reads st),
   {| accounts := accounts st; currentIndex := currentIndex st;
      lastRefreshTime := lastRefreshTime st; clock_reads := S (clock_reads st);
      fetches := fetches st; console := console st |}).

(** [fetch('https://oauth2.googleapis.com/token', ...)] *)
Definition call_endpoint (w : World) (st : State) (rt : string) : FetchResult * State :=
  (fetch_token w (fetches st) rt,
   {| accounts := accounts st; currentIndex := currentIndex st;
      lastRefreshTime := lastRefreshTime st; clock_reads := clock_reads st;
      fetches := S (fetches st); console := console st |}).

(** *** loadAccounts (lines 30-57) *)

(** Line 36, [acc => !acc.disabled && !acc.proxy_disabled]; [None] when the
    callback throws. *)
Definition enabled (a : Account) : bool :=
  negb (flag_set (disabled a)) && negb (flag_set (proxy_disabled a)).

Fixpoint filter_enabled (l : list elem) : option (list Account) :=
  match l with
  | [] => Some []
  | Null :: _ => None
  | Obj a :: l' =>
      match filter_enabled l' with
      | Some r => Some (if enabled a then a :: r else r)
      | None => None
      end
  end.

(** Lines 40-47. *)
Definition tierPriority (tier : option string) : Z :=
  match tier with
  | Some "ULTRA" => 0
  | Some "PRO" => 1
  | Some "FREE" => 2
  | _ => 3
  end.

Definition priority (a : Account) : Z := tierPriority (subscription_tier a).

(** Line 48, the comparator handed to [Array.prototype.sort]. *)
Definition compare_tier (a b : Account) : Z :=
  tierPriority (subscription_tier a) - tierPriority (subscription_tier b).

(** [Array.prototype.sort] is stable, and [compare_tier] is a consistent
    comparator, so the outcome of lines 39-49 does not depend on the
    engine's algorithm: it is the stable arrangement by ascending
    priority (see [sort_unique] below), computed here by insertion. *)
Fixpoint insert_by (cmp : Account -> Account -> Z) (x : Account) (l : list Account)
  : list Account :=
  match l with
  | [] => [x]
  | y :: l' => if cmp x y <=? 0 then x :: y :: l' else y :: insert_by cmp x l'
  end.

Definition sort (cmp : Account -> Account -> Z) (l : list Account) : list Account :=
  foldr (insert_by cmp) [] l.

(** Returns the array handed back to the caller and the new state. *)
Definition loadAccounts (w : World) (st : State) : list elem * State :=
  match ACCOUNTS_JSON w with
  | EnvMalformed =>
      (* line 33 throws before the assignment *)
      ([], say Err_load_failed st)
  | EnvUnset =>
      let st := set_accounts [] st in
      ([], say (Log_loaded 0) st)
  | EnvArray parsed =>
      let st := set_accounts parsed st in              (* line 33 *)
      match filter_enabled parsed with
      | None => ([], say Err_load_failed st)           (* lines 53-55 *)
      | Some kept =>
          let sorted := Obj <$> sort compare_tier kept in
          let st := set_accounts sorted st in
          (sorted, say (Log_loaded (length sorted)) st)
      end
  end.

(** *** refreshToken (lines 96-139)

    The account object is mutated in place; the function returns the
    account as it is afterwards, and the caller stores it back into the
    slot of the array the object lives in. *)
Definition refreshed_token (t : AccountToken) (d : TokenData) (now : Z) : AccountToken :=
  {| access_token := data_access_token d;
     refresh_token := refresh_token t;
     expires_in := data_expires_in d;
     expiry_timestamp := now + data_expires_in d;
     project_id := project_id t |}.

Definition with_token (a : Account) (t : AccountToken) : Account :=
  {| id := id a; email := email a; token := t; disabled := disabled a;
     proxy_disabled := proxy_disabled a; subscription_tier := subscription_tier a |}.

Definition refreshToken (w : World) (st : State) (account : Account)
  : option string * Account * State :=
  if negb (truthy_opt (GOOGLE_CLIENT_ID w)) || negb (truthy_opt (GOOGLE_CLIENT_SECRET w))
  then (None, account, say Err_missing_client st)
  else
    let '(response, st) := call_endpoint w st (refresh_token (token account)) in
    match response with
    | TransportFailure => (None, account, say (Err_refresh_error (email account)) st)
    | HttpError body => (None, account, say (Err_refresh_failed (email account) body) st)
    | HttpOk None => (None, account, say (Err_refresh_error (email account)) st)
    | HttpOk (Some data) =>
        let '(t, st) := now_ms w st in
        let now := t / 1000 in
        let account := with_token account (refreshed_token (token account) data now) in
        (Some (data_access_token data), account, say (Log_refreshed (email account)) st)
    end.

(** *** getToken (lines 62-91)

    The function calls itself in tail position (line 87). [getToken_once]
    is the body of one invocation up to that call; [getToken] runs
    invocations until one returns or throws. *)

Inductive step :=
| Return (r : option (Account * string))   (* lines 71, 84 and 90 *)
| Throw                                    (* a TypeError leaves the function *)
| Recurse.                                 (* line 87 *)

(** The condition of line 64, read at the state an invocation starts in. *)
Definition reload_due (w : World) (st : State) : bool :=
  (length (accounts st) =? 0)%nat
  || (Date_now w (clock_reads st) - lastRefreshTime st >? 5 * 60 * 1000).

(** Lines 64-67. [Date.now()] of line 64 is only evaluated when the array
    is not empty. *)
Definition getToken_reload (w : World) (st : State) : State :=
  let due := reload_due w st in
  let st := if (length (accounts st) =? 0)%nat then st else snd (now_ms w st) in
  if due then
    let '(_, st) := loadAccounts w st in
    let '(t, st) := now_ms w st in
    set_lastRefreshTime t st
  else st.

(** Lines 75-76. *)
Definition getToken_select (st : State) : option elem * State :=
  (accounts st !! (currentIndex st mod length (accounts st))%nat,
   incr_currentIndex st).

(** Lines 79-90, for the account and the slot it was taken from. *)
Definition getToken_check (w : World) (st : State) (slot : nat) (account : option elem)
  : step * State :=
  let '(t, st) := now_ms w st in
  let now := t / 1000 in
  match account with
  | Some (Obj account) =>
      if now >=? expiry_timestamp (token account) - 300 then
        let st := say (Log_expiring (email account)) st in
        let '(refreshed, account, st) := refreshToken w st account in
        let st := set_accounts (<[slot := Obj account]> (accounts st)) st in
        if truthy_opt refreshed
        then (Return (Some (account, or_empty refreshed)), st)
        else (Recurse, st)
      else (Return (Some (account, access_token (token account))), st)
  | _ => (Throw, st)
  end.

Definition getToken_once (w : World) (st : State) : step * State :=
  let st := getToken_reload w st in
  if (length (accounts st) =? 0)%nat then (Return None, say Err_no_accounts st)
  else
    let slot := (currentIndex st mod length (accounts st))%nat in
    let '(account, st) := getToken_select st in
    getToken_check w st slot account.

Inductive outcome :=
| Resolved (r : option (Account * string))
| Rejected
| OutOfFuel.

Fixpoint getToken (fuel : nat) (w : World) (st : State) : outcome * State :=
  match fuel with
  | O => (OutOfFuel, st)
  | S fuel' =>
      match getToken_once w st with
      | (Return r, st') => (Resolved r, st')
      | (Throw, st') => (Rejected, st')
      | (Recurse, st') => getToken fuel' w st'
      end
  end.

(** *** getAccountCount (lines 144-149) *)
Definition getAccountCount (w : World) (st : State) : nat * State :=
  let st := if (length (accounts st) =? 0)%nat then snd (loadAccounts w st) else st in
  (length (accounts st), st).

(** *** getAccounts (lines 154-166)

    A copy of every account with the two tokens masked; [None] when the
    callback of [map] throws, which reading [acc.token] does on a null
    element. *)
Definition mask (acc : Account) : Account :=
  with_token acc
    {| access_token := "***"; refresh_token := "***";
       expires_in := expires_in (token acc);
       expiry_timestamp := expiry_timestamp (token acc);
       project_id := project_id (token acc) |}.

Fixpoint mask_all (l : list elem) : option (list Account) :=
  match l with
  | [] => Some []
  | Null :: _ => None
  | Obj acc :: l' =>
      match mask_all l' with
      | Some r => Some (mask acc :: r)
      | None => None
      end
  end.

Definition getAccounts (w : World) (st : State) : option (list Account) * State :=
  let st := if (length (accounts st) =? 0)%nat then snd (loadAccounts w st) else st in
  (mask_all (accounts st), st).

End TokenManager.

(** ** The upstream (Gemini) response, as far as the translators read it *)

Module Gemini.

Record Part := { text : option string }.

Record Content := { parts : option (list Part) }.

Record Candidate := {
  content : option Content;
  finishReason : option string
}.

Record UsageMetadata := {
  promptTokenCount : option Z;
  candidatesTokenCount : option Z;
  totalTokenCount : option Z
}.

Record Response := {
  candidates : option (list Candidate);
  usageMetadata : option UsageMetadata
}.

(** [geminiResponse.candidates?.[0]] *)
Definition first_candidate (g : Response) : option Candidate :=
  candidates g ≫= head.

(** [candidate.content?.parts] *)
Definition parts_of (c : Candidate) : option (list Part) :=
  content c ≫= parts.

(** [parts?.map((p: any) => p.text || '').join('') || ''] *)
Definition joined_text (ps : option (list Part)) : string :=
  match ps with
  | Some l => foldr String.append "" ((λ p, or_empty (text p)) <$> l)
  | None => ""
  end.

(** [geminiData.candidates?.[0]?.content?.parts?.[0]?.text || ''] *)
Definition first_part_text (g : Response) : string :=
  match first_candidate g with
  | Some c =>
      match parts_of c with
      | Some (p :: _) => or_empty (text p)
      | _ => ""
      end
  | None => ""
  end.

(** [geminiData.candidates?.[0]?.finishReason], as a condition *)
Definition has_finish (g : Response) : bool :=
  truthy_opt (first_candidate g ≫= finishReason).

(** [geminiResponse.usageMetadata?.f || 0] *)
Definition usage_count (g : Response) (f : UsageMetadata → option Z) : Z :=
  or0 (usageMetadata g ≫= f).

(** The reading loop that the two re-encoders have in common (lines 188-208
    of lib/upstream.ts, lines 181-199 of messages/route.ts). The upstream is
    the list of the texts that the successive [reader.read()] deliver,
    decoded, and the way the reader ends. *)

Definition newline : Ascii.ascii := Ascii.ascii_of_nat 10.

(** [s.split('\n')] *)
Fixpoint split_lines (s : string) : list string :=
  match s with
  | EmptyString => [EmptyString]
  | String c s' =>
      if Ascii.eqb c newline then EmptyString :: split_lines s'
      else
        match split_lines s' with
        | l :: ls => String c l :: ls
        | [] => [String c EmptyString]
        end
  end.

(** One turn of the [while] loop: [buffer += chunk], [buffer.split('\n')],
    [buffer = lines.pop() || '']; returns the complete lines and the new
    buffer. *)
Definition take_lines (buffer chunk : string) : list string * string :=
  let lines := split_lines (buffer ++ chunk) in
  (removelast lines, List.last lines "").

(** The lines that the loop body sees, in order, over all turns. What is
    left in the buffer when the reader is done is never looked at. *)
Fixpoint lines_of (buffer : string) (reads : list string) : list string :=
  match reads with
  | [] => []
  | chunk :: rest =>
      let '(lines, buffer) := take_lines buffer chunk in
      lines ++ lines_of buffer rest
  end.

(** One line, as the loop body tells lines apart. *)
Inductive sse_line :=
| NotData                (* does not start with 'data: ' *)
| DoneSentinel           (* 'data: [DONE]' *)
| BadJson                (* 'data: ' and a text that JSON.parse rejects *)
| Data (g : Response).   (* 'data: ' and the JSON text of g *)

(** [line.startsWith('data: ')], [line.slice(6)], [data === '[DONE]'] and
    [JSON.parse(data)]; the parser is a parameter, [None] when it throws. *)
Definition classify (JSON_parse : string → option Response) (line : string) : sse_line :=
  if String.prefix "data: " line then
    let data := String.substring 6 (String.length line - 6) line in
    if String.eqb data "[DONE]" then DoneSentinel
    else
      match JSON_parse data with
      | Some g => Data g
      | None => BadJson
      end
  else NotData.

(** How the upstream reader ends: [reader.read()] reports done, or rejects. *)
Inductive input_end := Eof | ReadFails.

(** How the output stream ends: [controller.close()] or [controller.error]. *)
Inductive output_end := Closed | Errored.

End Gemini.

(** ** lib/auth.ts, at its boundary *)

Module Auth.

(** What [validateApiKey(request)] returns. *)
Record AuthResult := { valid : bool; error : option string }.

Section Validate.
(** [authHeader.match(/^Bearer\s+(.+)$/i)]: the text of the group when the
    header matches, [None] when it does not. *)
Variable bearer : string → option string.

(** validateApiKey (lines 15-53), for the value of the Authorization header
    ([None] when the request has none) and of [process.env.PROXY_API_KEY];
    the boolean tells whether line 38 wrote to the console. *)
Definition validateApiKey (authHeader : option string) (PROXY_API_KEY : option string)
  : AuthResult * bool :=
  match authHeader with
  | None | Some EmptyString =>
      ({| valid := false; error := Some "Missing Authorization header" |}, false)
  | Some header =>
      match bearer header with
      | None =>
          ({| valid := false;
              error := Some "Invalid Authorization header format. Expected: Bearer <token>" |},
           false)
      | Some providedKey =>
          if negb (truthy_opt PROXY_API_KEY) then
            ({| valid := false; error := Some "Server configuration error" |}, true)
          else if negb (String.eqb providedKey (or_empty PROXY_API_KEY)) then
            ({| valid := false; error := Some "Invalid API key" |}, false)
          else ({| valid := true; error := None |}, false)
      end
  end.
End Validate.

(** unauthorizedResponse (lines 58-74): the status and the three fields of
    the [error] object of the body. *)
Record Unauthorized := {
  status : Z;
  message : string;
  type : string;
  code : string
}.

Definition unauthorizedResponse (error : string) : Unauthorized :=
  {| status := 401; message := error; type := "invalid_request_error";
     code := "invalid_api_key" |}.

End Auth.

(** ** lib/upstream.ts: chat-completion (OpenAI) requests and responses *)

Module Upstream.
Import Gemini.

Record ContentPart := {
  part_type : string;
  part_text : option string;
  image_url : option string
}.

Inductive ChatContent :=
| Plain (s : string)
| Parts (l : list ContentPart).

Record ChatMessage := { role : string; content : ChatContent }.

(** The parsed body; [model] and [messages] are required by the interface
    of lines 14-22, but a body may lack them all the same. *)
Record ChatCompletionRequest := {
  req_model : option string;
  req_messages : option (list ChatMessage);
  req_stream : option bool;
  req_temperature : option Q;
  req_max_tokens : option Z;
  req_top_p : option Q;
  req_stop : option (list string)
}.

Record Choice := {
  index : Z;
  message_role : string;
  message_content : string;
  finish_reason : string
}.

Record Usage := {
  prompt_tokens : Z;
  completion_tokens : Z;
  total_tokens : Z
}.

(** [id] is 'chatcmpl-' followed by the number [id_stamp]. *)
Record ChatCompletion := {
  id_stamp : Z;
  object : string;
  created : Z;
  model : string;
  choices : list Choice;
  usage : Usage
}.

(** The request side (lines 24-74). *)

Inductive GeminiPart :=
| TextPart (s : string)
| InlineData (mimeType : string) (data : option string).
    (* data is undefined when the URL has no comma *)

Record GeminiContent := { g_role : string; g_parts : list GeminiPart }.

Definition comma : Ascii.ascii := Ascii.ascii_of_nat 44.

Definition semicolon : Ascii.ascii := Ascii.ascii_of_nat 59.

(** [s.split(sep)] for a separator of one character. *)
Fixpoint split_at (sep : Ascii.ascii) (s : string) : list string :=
  match s with
  | EmptyString => [EmptyString]
  | String c s' =>
      if Ascii.eqb c sep then EmptyString :: split_at sep s'
      else
        match split_at sep s' with
        | l :: ls => String c l :: ls
        | [] => [String c EmptyString]
        end
  end.

(** The longest run of characters other than [;] that [s] begins with: what
    [[^;]+] takes, when the run is not empty. *)
Fixpoint run_to_semicolon (s : string) : string :=
  match s with
  | EmptyString => EmptyString
  | String c s' =>
      if Ascii.eqb c semicolon then EmptyString else String c (run_to_semicolon s')
  end.

(** [header.match(/data:([^;]+)/)?.[1]]: the group of the leftmost match. *)
Fixpoint match_data (header : string) : option string :=
  let here :=
    if String.prefix "data:" header
    then
      let run := run_to_semicolon (String.substring 5 (String.length header - 5) header) in
      if truthy run then Some run else None
    else None in
  match here with
  | Some run => Some run
  | None =>
      match header with
      | EmptyString => None
      | String _ rest => match_data rest
      end
  end.

(** [array.join(sep)] *)
Fixpoint join (sep : string) (l : list string) : string :=
  match l with
  | [] => ""
  | [x] => x
  | x :: rest => (x ++ sep ++ join sep rest)%string
  end.

(** Lines 54-67, the body of [for (const part of msg.content)]. *)
Definition convert_part (part : ContentPart) : list GeminiPart :=
  if String.eqb (part_type part) "text" && truthy_opt (part_text part)
  then [TextPart (or_empty (part_text part))]
  else if String.eqb (part_type part) "image_url" && truthy_opt (image_url part)
  then
    let url := or_empty (image_url part) in
    if String.prefix "data:" url then
      let pieces := split_at comma url in
      let header := nth 0 pieces "" in
      let data := pieces !! 1%nat in
      let mimeType := default "image/jpeg" (match_data header) in
      [InlineData mimeType data]
    else []
  else [].

(** Lines 39-40, the text of a system message. *)
Definition system_text (c : ChatContent) : string :=
  match c with
  | Plain s => s
  | Parts l =>
      join (String newline "")
        ((λ p, or_empty (part_text p))
           <$> List.filter (λ p, String.eqb (part_type p) "text") l)
  end.

(** Lines 45-70, for a message that is not a system message. *)
Definition convert_turn (msg : ChatMessage) : GeminiContent :=
  let role := if String.eqb (role msg) "assistant" then "model" else "user" in
  let parts :=
    match content msg with
    | Plain s => [TextPart s]
    | Parts l => concat (convert_part <$> l)
    end in
  {| g_role := role; g_parts := parts |}.

(** Lines 36-71, one turn of [for (const msg of messages)], on the two
    variables of lines 33-34. *)
Definition convert_step (acc : option string * list GeminiContent) (msg : ChatMessage)
  : option string * list GeminiContent :=
  let '(systemInstruction, contents) := acc in
  if String.eqb (role msg) "system" then (Some (system_text (content msg)), contents)
  else (systemInstruction, contents ++ [convert_turn msg]).

(** convertMessages (lines 32-74): the contents, and the text of the system
    instruction if there is one. *)
Definition convertMessages (messages : list ChatMessage)
  : list GeminiContent * option string :=
  let '(systemInstruction, contents) := fold_left convert_step messages (None, []) in
  (contents, systemInstruction).

(** Lines 93-94. *)
Definition finishReason_of (c : Candidate) : string :=
  match finishReason c with
  | Some "STOP" => "stop"
  | Some "MAX_TOKENS" => "length"
  | _ => "stop"
  end.

(** convertResponse (lines 79-117); [t_id] and [t_created] are the two
    readings of [Date.now()]. *)
Definition convertResponse (t_id t_created : Z) (geminiResponse : Response) (model : string)
  : ChatCompletion :=
  match first_candidate geminiResponse with
  | None =>
      {| id_stamp := t_id; object := "chat.completion"; created := t_created / 1000;
         model := model; choices := [];
         usage := {| prompt_tokens := 0; completion_tokens := 0; total_tokens := 0 |} |}
  | Some candidate =>
      let content := joined_text (parts_of candidate) in
      let finishReason := finishReason_of candidate in
      {| id_stamp := t_id; object := "chat.completion"; created := t_created / 1000;
         model := model;
         choices := [ {| index := 0; message_role := "assistant";
                         message_content := content;
                         finish_reason := finishReason |} ];
         usage := {| prompt_tokens := usage_count geminiResponse promptTokenCount;
                     completion_tokens := usage_count geminiResponse candidatesTokenCount;
                     total_tokens := usage_count geminiResponse totalTokenCount |} |}
  end.

(** The streaming branch of forwardChatCompletion (lines 186-259). *)

Record ChunkChoice := {
  chunk_index : Z;
  delta_content : option string;        (* None: the delta is {} *)
  chunk_finish_reason : option string   (* None: null *)
}.

Record CompletionChunk := {
  chunk_id_stamp : Z;
  chunk_object : string;
  chunk_created : Z;
  chunk_model : string;
  chunk_choices : list ChunkChoice
}.

(** What is enqueued on the output stream. *)
Inductive sse_out :=
| DataChunk (c : CompletionChunk)   (* 'data: ' JSON.stringify(c) '\n\n' *)
| DoneLine.                         (* 'data: [DONE]\n\n' *)

Section Stream.
Variable JSON_parse : string → option Response.
Variable Date_now : nat → Z.
Variable request_model : string.

Definition make_chunk (reads : nat) (delta : option string) (fin : option string)
  : CompletionChunk :=
  {| chunk_id_stamp := Date_now reads;
     chunk_object := "chat.completion.chunk";
     chunk_created := Date_now (S reads) / 1000;
     chunk_model := request_model;
     chunk_choices := [ {| chunk_index := 0; delta_content := delta;
                           chunk_finish_reason := fin |} ] |}.

(** Lines 200-248, the body of [for (const line of lines)]; the state is
    the number of clock readings made so far. *)
Definition on_line (reads : nat) (line : sse_line) : list sse_out * nat :=
  match line with
  | NotData => ([], reads)
  | DoneSentinel => ([DoneLine], reads)
  | BadJson => ([], reads)
  | Data geminiData =>
      let text := first_part_text geminiData in
      let '(out1, reads) :=
        if truthy text
        then ([DataChunk (make_chunk reads (Some text) None)], S (S reads))
        else ([], reads) in
      let '(out2, reads) :=
        if has_finish geminiData
        then ([DataChunk (make_chunk reads None (Some "stop"))], S (S reads))
        else ([], reads) in
      (out1 ++ out2, reads)
  end.

Fixpoint on_lines (reads : nat) (lines : list sse_line) : list sse_out * nat :=
  match lines with
  | [] => ([], reads)
  | line :: rest =>
      let '(out, reads) := on_line reads line in
      let '(outs, reads) := on_lines reads rest in
      (out ++ outs, reads)
  end.

(** [start(controller)]: the loop over the upstream, then lines 252-257. *)
Definition start (reads : list string) (e : input_end) : list sse_out * output_end :=
  let '(out, _) := on_lines 0 (classify JSON_parse <$> lines_of "" reads) in
  match e with
  | Eof => (out ++ [DoneLine], Closed)
  | ReadFails => (out, Errored)
  end.
End Stream.

End Upstream.

(** ** app/api/v1/messages/route.ts: messages (Claude) responses *)

Module Messages.
Import Gemini.

Record TextBlock := { block_type : string; block_text : string }.

Record Usage := { input_tokens : Z; output_tokens : Z }.

(** [id] is 'msg_' followed by the number [id_stamp]; [stop_sequence] is
    always null. *)
Record Message := {
  id_stamp : Z;
  type : string;
  role : string;
  content : list TextBlock;
  model : string;
  stop_reason : string;
  usage : Usage
}.

(** Lines 86-87. *)
Definition stopReason_of (c : option Candidate) : string :=
  match c ≫= finishReason with
  | Some "STOP" => "end_turn"
  | Some "MAX_TOKENS" => "max_tokens"
  | _ => "end_turn"
  end.

(** convertGeminiToClaude (lines 82-102). *)
Definition convertGeminiToClaude (t_id : Z) (geminiResponse : Response) (model : string)
  : Message :=
  let candidate := first_candidate geminiResponse in
  let text := joined_text (candidate ≫= parts_of) in
  let stopReason := stopReason_of candidate in
  {| id_stamp := t_id; type := "message"; role := "assistant";
     content := [ {| block_type := "text"; block_text := text |} ];
     model := model; stop_reason := stopReason;
     usage := {| input_tokens := usage_count geminiResponse promptTokenCount;
                 output_tokens := usage_count geminiResponse candidatesTokenCount |} |}.

(** The events of the streaming branch of POST (lines 179-267); each is
    enqueued as 'event: <name>' and a 'data: ' line with its JSON. *)
Inductive event :=
| message_start (id_stamp : Z) (model : string)
    (* content [], stop_reason null, usage 0 / 0 *)
| content_block_start                   (* index 0, text block with text '' *)
| content_block_delta (text : string)   (* index 0, text_delta *)
| content_block_stop                    (* index 0 *)
| message_delta (stop_reason : string) (output_tokens : Z)
| message_stop.

Section Stream.
Variable JSON_parse : string → option Response.
Variable Date_now : nat → Z.
Variable body_model : string.

(** Lines 194-258, the body of [for (const line of lines)]; the state is
    [messageStarted]. *)
Definition on_line (messageStarted : bool) (line : sse_line) : list event * bool :=
  match line with
  | NotData => ([], messageStarted)
  | DoneSentinel => ([], messageStarted)
  | BadJson => ([], messageStarted)
  | Data geminiData =>
      let text := first_part_text geminiData in
      let opening :=
        if messageStarted then []
        else [message_start (Date_now 0) body_model; content_block_start] in
      let delta := if truthy text then [content_block_delta text] else [] in
      let closing :=
        if has_finish geminiData
        then [content_block_stop;
              message_delta "end_turn" (usage_count geminiData candidatesTokenCount);
              message_stop]
        else [] in
      (opening ++ delta ++ closing, true)
  end.

Fixpoint on_lines (messageStarted : bool) (lines : list sse_line) : list event * bool :=
  match lines with
  | [] => ([], messageStarted)
  | line :: rest =>
      let '(out, messageStarted) := on_line messageStarted line in
      let '(outs, messageStarted) := on_lines messageStarted rest in
      (out ++ outs, messageStarted)
  end.

(** [start(controller)]: the loop over the upstream, then lines 261-265. *)
Definition start (reads : list string) (e : input_end) : list event * output_end :=
  let '(out, _) := on_lines false (classify JSON_parse <$> lines_of "" reads) in
  match e with
  | Eof => (out, Closed)
  | ReadFails => (out, Errored)
  end.
End Stream.

(** The request side (lines 16-77). *)

Record Source := { source_type : string; media_type : string; data : string }.

Record ContentBlock := {
  cb_type : string;
  cb_text : option string;
  cb_source : option Source
}.

Inductive MessageContent :=
| Plain (s : string)
| Blocks (l : list ContentBlock).

Record ClaudeMessage := { msg_role : string; msg_content : MessageContent }.

(** The parsed body; [model], [messages] and [max_tokens] are required by
    the interface of lines 21-30, but a body may lack them all the same. *)
Record ClaudeRequest := {
  req_model : option string;
  req_messages : option (list ClaudeMessage);
  req_max_tokens : option Z;
  req_stream : option bool;
  req_system : option string;
  req_temperature : option Q;
  req_top_p : option Q;
  req_stop_sequences : option (list string)
}.

Inductive GeminiPart :=
| TextPart (s : string)
| InlineData (mimeType : string) (bytes : string).

Record GeminiContent := { g_role : string; g_parts : list GeminiPart }.

Record GenerationConfig := {
  maxOutputTokens : option Z;
  temperature : option Q;
  topP : option Q;
  stopSequences : option (list string)
}.

Record GeminiRequest := {
  contents : list GeminiContent;
  generationConfig : GenerationConfig;
  systemInstruction : option string    (* the text of its single part *)
}.

(** Lines 45-56. *)
Definition convert_block (block : ContentBlock) : list GeminiPart :=
  if String.eqb (cb_type block) "text" && truthy_opt (cb_text block)
  then [TextPart (or_empty (cb_text block))]
  else
    match cb_source block with
    | Some source =>
        if String.eqb (cb_type block) "image"
        then [InlineData (media_type source) (data source)]
        else []
    | None => []
    end.

(** Lines 38-60, the body of [for (const msg of request.messages)]. *)
Definition convert_message (msg : ClaudeMessage) : GeminiContent :=
  let role := if String.eqb (msg_role msg) "assistant" then "model" else "user" in
  let parts :=
    match msg_content msg with
    | Plain s => [TextPart s]
    | Blocks l => concat (convert_block <$> l)
    end in
  {| g_role := role; g_parts := parts |}.

(** convertClaudeToGemini (lines 35-77); [None] when it throws: iterating
    [request.messages] is a TypeError when the field is absent. *)
Definition convertClaudeToGemini (request : ClaudeRequest) : option GeminiRequest :=
  match req_messages request with
  | None => None
  | Some messages =>
      Some {| contents := convert_message <$> messages;
              generationConfig :=
                {| maxOutputTokens := req_max_tokens request;
                   temperature := req_temperature request;
                   topP := req_top_p request;
                   stopSequences := req_stop_sequences request |};
              systemInstruction :=
                if truthy_opt (req_system request) then req_system request else None |}
  end.

(** The body of an error reply: [{ type: 'error', error: { type, message } }]. *)
Record ClaudeError := { error_type : string; error_message : string }.

(** How far POST (lines 104-145) gets before the upstream is called. *)
Inductive handled :=
| Unauthorized (message : string)       (* unauthorizedResponse: status 401 *)
| Reply (status : Z) (e : ClaudeError)
| Crash                                 (* an exception leaves POST *)
| CallUpstream (geminiModel : option string) (geminiRequest : GeminiRequest)
    (token : string) (streaming : bool).

Section Handler.
(** [mapModel] of lib/model-mapping.ts, applied to [body.model] as it is,
    absent or not. *)
Variable mapModel : option string → option string.

(** [tokenResult] is what [await getToken()] resolves to, should the
    handler get that far. Lines 138-139 are not inside the [try] of
    line 147. *)
Definition POST (auth : Auth.AuthResult) (parsed : option ClaudeRequest)
    (tokenResult : option (TokenManager.Account * string)) : handled :=
  if negb (Auth.valid auth) then Unauthorized (or_empty (Auth.error auth))
  else
    match parsed with
    | None =>
        Reply 400 {| error_type := "invalid_request_error";
                     error_message := "Invalid JSON body" |}
    | Some body =>
        match tokenResult with
        | None =>
            Reply 529 {| error_type := "overloaded_error";
                         error_message := "No available accounts" |}
        | Some (_, token) =>
            let geminiModel := mapModel (req_model body) in
            match convertClaudeToGemini body with
            | None => Crash
            | Some geminiRequest =>
                CallUpstream geminiModel geminiRequest token
                  (flag_set (req_stream body))
            end
        end
    end.
End Handler.

End Messages.

(** ** app/api/v1/chat/completions/route.ts *)

Module ChatCompletions.

(** The body of an error reply: [{ error: { message, type } }]. *)
Record OpenAIError := { error_message : string; error_type : string }.

(** How far POST gets before the request is handed to
    [forwardChatCompletion], which translates and sends it. *)
Inductive handled :=
| Unauthorized (message : string)       (* unauthorizedResponse: status 401 *)
| Reply (status : Z) (e : OpenAIError)
| Forward (body : Upstream.ChatCompletionRequest) (token : string).

(** [tokenResult] is what [await getToken()] resolves to, should the
    handler get that far. *)
Definition POST (auth : Auth.AuthResult) (parsed : option Upstream.ChatCompletionRequest)
    (tokenResult : option (TokenManager.Account * string)) : handled :=
  if negb (Auth.valid auth) then Unauthorized (or_empty (Auth.error auth))
  else
    match parsed with
    | None =>
        Reply 400 {| error_message := "Invalid JSON body";
                     error_type := "invalid_request_error" |}
    | Some body =>
        if negb (truthy_opt (Upstream.req_model body)) then
          Reply 400 {| error_message := "Missing required field: model";
                       error_type := "invalid_request_error" |}
        else
          match Upstream.req_messages body with
          | None | Some [] =>
              Reply 400 {| error_message := "Missing required field: messages";
                           error_type := "invalid_request_error" |}
          | Some (_ :: _) =>
              match tokenResult with
              | None =>
                  Reply 503
                    {| error_message :=
                         "No available accounts. Please configure ACCOUNTS_JSON.";
                       error_type := "server_error" |}
              | Some (_, token) => Forward body token
              end
          end
    end.

End ChatCompletions.

(** ** lib/model-mapping.ts *)

Module ModelMapping.

Definition DEFAULT_MAPPINGS : list (string * string) :=
  [ ("gpt-4", "gemini-1.5-pro");
    ("gpt-4-turbo", "gemini-1.5-pro");
    ("gpt-4-turbo-preview", "gemini-1.5-pro");
    ("gpt-4-0125-preview", "gemini-1.5-pro");
    ("gpt-4-1106-preview", "gemini-1.5-pro");
    ("gpt-4o", "gemini-1.5-pro");
    ("gpt-4o-mini", "gemini-1.5-flash");
    ("gpt-3.5-turbo", "gemini-1.5-flash");
    ("gpt-3.5-turbo-0125", "gemini-1.5-flash");
    ("gpt-3.5-turbo-1106", "gemini-1.5-flash");
    ("claude-3-opus-20240229", "gemini-1.5-pro");
    ("claude-3-sonnet-20240229", "gemini-1.5-pro");
    ("claude-3-haiku-20240307", "gemini-1.5-flash");
    ("claude-3-5-sonnet-20240620", "gemini-1.5-pro");
    ("claude-3-5-sonnet-20241022", "gemini-1.5-pro");
    ("gemini-1.5-pro", "gemini-1.5-pro");
    ("gemini-1.5-flash", "gemini-1.5-flash");
    ("gemini-1.5-flash-8b", "gemini-1.5-flash-8b");
    ("gemini-2.0-flash-exp", "gemini-2.0-flash-exp");
    ("gemini-2.0-flash-thinking-exp", "gemini-2.0-flash-thinking-exp");
    ("gemini-exp-1206", "gemini-exp-1206");
    ("dall-e-3", "imagen-3.0-generate-001");
    ("dall-e-2", "imagen-3.0-generate-001") ].

(** [process.env.MODEL_MAPPING_JSON], told apart by what lines 49-50 make
    of it. A table is an object all of whose values are strings, given by
    its properties in the order of [Object.keys]; texts with any other
    value are left out of the model. *)
Inductive blob :=
| EnvUnset                                  (* absent or empty: '{}' is parsed *)
| EnvMalformed                              (* JSON.parse throws *)
| EnvTable (kvs : list (string * string)).

Definition table_of (env : blob) : list (string * string) :=
  match env with
  | EnvTable kvs => kvs
  | _ => []
  end.

Inductive log_entry :=
| Log_loaded (n : nat)
| Err_parse.

(** The module variable of line 42, and the console (latest entry first). *)
Record State := {
  customMappings : list (string * string);
  console : list log_entry
}.

Definition initial : State := {| customMappings := []; console := [] |}.

(** The names that every object answers to without having them, because
    [Object.prototype] has them. *)
Definition inherited (name : string) : bool :=
  existsb (String.eqb name)
    [ "constructor"; "hasOwnProperty"; "isPrototypeOf"; "propertyIsEnumerable";
      "toLocaleString"; "toString"; "valueOf"; "__proto__";
      "__defineGetter__"; "__defineSetter__"; "__lookupGetter__"; "__lookupSetter__" ].

(** The property's own value. *)
Fixpoint own (kvs : list (string * string)) (name : string) : option string :=
  match kvs with
  | [] => None
  | (k, v) :: rest => if String.eqb name k then Some v else own rest name
  end.

(** What [table[name]] evaluates to. *)
Inductive value :=
| Str (s : string)
| Inherited (name : string)   (* a function or object of Object.prototype *)
| Undefined.

Definition get (kvs : list (string * string)) (name : string) : value :=
  match own kvs name with
  | Some v => Str v
  | None => if inherited name then Inherited name else Undefined
  end.

(** loadCustomMappings (lines 47-56). *)
Definition loadCustomMappings (env : blob) (st : State) : State :=
  match env with
  | EnvMalformed => {| customMappings := []; console := Err_parse :: console st |}
  | _ =>
      {| customMappings := table_of env;
         console := Log_loaded (length (table_of env)) :: console st |}
  end.

(** mapModel (lines 61-79). *)
Definition mapModel (env : blob) (st : State) (modelName : string) : value * State :=
  let st :=
    if (length (customMappings st) =? 0)%nat then loadCustomMappings env st else st in
  match get (customMappings st) modelName with
  | Str (String c s) => (Str (String c s), st)
  | Inherited n => (Inherited n, st)
  | _ =>
      match get DEFAULT_MAPPINGS modelName with
      | Str (String c s) => (Str (String c s), st)
      | Inherited n => (Inherited n, st)
      | _ => (Str modelName, st)
      end
  end.

Record ModelInfo := {
  id : string;
  object : string;
  created : Z;
  owned_by : string
}.

(** [Array.from(new Set(l))]: the elements of [l] in the order of their
    first occurrence, added to the ones already seen. *)
Fixpoint add_all (seen : list string) (l : list string) : list string :=
  match l with
  | [] => seen
  | x :: rest =>
      add_all (if existsb (String.eqb x) seen then seen else seen ++ [x]) rest
  end.

Definition listed : list string :=
  [ "gpt-4"; "gpt-4-turbo"; "gpt-4o"; "gpt-4o-mini"; "gpt-3.5-turbo";
    "gemini-1.5-pro"; "gemini-1.5-flash"; "gemini-2.0-flash-exp";
    "gemini-2.0-flash-thinking-exp"; "claude-3-opus-20240229";
    "claude-3-sonnet-20240229"; "claude-3-5-sonnet-20241022" ].

(** getAvailableModels (lines 92-118). *)
Definition getAvailableModels (st : State) : list ModelInfo :=
  let models := listed ++ (fst <$> customMappings st) in
  let uniqueModels := add_all [] models in
  (λ id, {| id := id; object := "model"; created := 1677610602;
            owned_by := "antigravity-proxy" |}) <$> uniqueModels.

End ModelMapping.

(** * Notions used in the statements *)

(** The order the pool is kept in. *)
Definition by_priority (a b : TokenManager.Account) : Prop :=
  (TokenManager.priority a ≤ TokenManager.priority b)%Z.

(** The state [k] consecutive invocations of getToken leave, whether an
    invocation is a call of a handler or the call of line 87. *)
Definition after (w : TokenManager.World) (k : nat) (st : TokenManager.State)
  : TokenManager.State :=
  Nat.iter k (λ s, snd (TokenManager.getToken_once w s)) st.

(** The state [k] consecutive calls of getToken by a handler leave. *)
Definition after_calls (w : TokenManager.World) (fuel k : nat) (st : TokenManager.State)
  : TokenManager.State :=
  Nat.iter k (λ s, snd (TokenManager.getToken fuel w s)) st.


(** What the [k]-th of consecutive calls of getToken by a handler comes to,
    the first call being the 0-th. *)
Definition call_result (w : TokenManager.World) (fuel k : nat) (st : TokenManager.State)
  : TokenManager.outcome :=
  fst (TokenManager.getToken fuel w (after_calls w fuel k st)).

(** The account that the invocation starting in [st] takes at line 75. *)
Definition picked (w : TokenManager.World) (st : TokenManager.State)
  : option TokenManager.elem :=
  fst (TokenManager.getToken_select (TokenManager.getToken_reload w st)).

(** The accounts taken by [n] consecutive invocations. *)
Definition picks (w : TokenManager.World) (n : nat) (st : TokenManager.State)
  : list (option TokenManager.elem) :=
  (λ k, picked w (after w k st)) <$> seq 0 n.

(** The token of [a] is within five minutes of its expiry, or past it, at
    every reading of the clock. *)
Definition expiring_forever (w : TokenManager.World) (a : TokenManager.Account) : Prop :=
  ∀ k, (TokenManager.expiry_timestamp (TokenManager.token a) - 300
        ≤ TokenManager.Date_now w k / 1000)%Z.

(** An element of the pool that is an account whose token is always about
    to expire. *)
Definition doomed (w : TokenManager.World) (e : TokenManager.elem) : Prop :=
  ∃ a, e = TokenManager.Obj a ∧ expiring_forever w a.

(** The number of refresh attempts so far: line 81 announces each on the
    console. *)
Fixpoint count_attempts (l : list TokenManager.log_entry) : nat :=
  match l with
  | [] => 0
  | TokenManager.Log_expiring _ :: l' => S (count_attempts l')
  | _ :: l' => count_attempts l'
  end.

Definition refresh_attempts (st : TokenManager.State) : nat :=
  count_attempts (TokenManager.console st).

(** No refresh attempt succeeds: the client credentials are missing, or the
    endpoint never answers with a token. *)
Definition refresh_always_fails (w : TokenManager.World) : Prop :=
  truthy_opt (TokenManager.GOOGLE_CLIENT_ID w)
    && truthy_opt (TokenManager.GOOGLE_CLIENT_SECRET w) = false
  ∨ ∀ k rt data, TokenManager.fetch_token w k rt ≠ TokenManager.HttpOk (Some data).

(** The account list of the environment is absent, unreadable, or an array
    of account objects. *)
Definition list_of_objects (w : TokenManager.World) : Prop :=
  match TokenManager.ACCOUNTS_JSON w with
  | TokenManager.EnvArray parsed => ∃ l, parsed = TokenManager.Obj <$> l
  | _ => True
  end.

(** Every element of the pool is an account object with neither flag set. *)
Definition well_kept (st : TokenManager.State) : Prop :=
  Forall (λ e, ∃ a, e = TokenManager.Obj a ∧ TokenManager.enabled a = true)
    (TokenManager.accounts st).

(** An upstream chunk whose first candidate has the given parts and finish
    reason. *)
Definition chunk_with (ps : option (list Gemini.Part)) (reason : option string)
    (others : list Gemini.Candidate) (um : option Gemini.UsageMetadata)
  : Gemini.Response :=
  {| Gemini.candidates :=
       Some ({| Gemini.content := Some {| Gemini.parts := ps |};
                Gemini.finishReason := reason |} :: others);
     Gemini.usageMetadata := um |}.

(** A chunk that carries the text [s] and nothing else. *)
Definition text_chunk (s : string) : Gemini.Response :=
  chunk_with (Some [ {| Gemini.text := Some s |} ]) None [] None.

(** The lines of an upstream that carry something: its parsed chunks and
    its [DONE] sentinels, in order. *)
Definition carries (l : Gemini.sse_line) : bool :=
  match l with
  | Gemini.NotData | Gemini.BadJson => false
  | Gemini.DoneSentinel | Gemini.Data _ => true
  end.

Definition chunks_of (JSON_parse : string → option Gemini.Response) (reads : list string)
  : list Gemini.sse_line :=
  List.filter carries (Gemini.classify JSON_parse <$> Gemini.lines_of "" reads).

(** The whole text of an upstream. *)
Definition whole (reads : list string) : string := foldr String.append "" reads.

Definition is_data (l : Gemini.sse_line) : bool :=
  match l with
  | Gemini.Data _ => true
  | _ => false
  end.

Definition is_sentinel (l : Gemini.sse_line) : bool :=
  match l with
  | Gemini.DoneSentinel => true
  | _ => false
  end.

(** The text that the chunks of an upstream carry in their first part, put
    together in order. *)
Fixpoint carried_text (lines : list Gemini.sse_line) : string :=
  match lines with
  | [] => ""
  | Gemini.Data g :: rest => (Gemini.first_part_text g ++ carried_text rest)%string
  | _ :: rest => carried_text rest
  end.

(** The text that a messages stream delivers: that of its deltas. *)
Fixpoint delivered_text (evs : list Messages.event) : string :=
  match evs with
  | [] => ""
  | Messages.content_block_delta t :: rest => (t ++ delivered_text rest)%string
  | _ :: rest => delivered_text rest
  end.

(** The text that a chat-completion stream delivers: the delta contents of
    the choices of its chunks. *)
Definition chunk_text (c : Upstream.CompletionChunk) : string :=
  foldr String.append ""
    ((λ ch, or_empty (Upstream.delta_content ch)) <$> Upstream.chunk_choices c).

Fixpoint streamed_text (out : list Upstream.sse_out) : string :=
  match out with
  | [] => ""
  | Upstream.DataChunk c :: rest => (chunk_text c ++ streamed_text rest)%string
  | Upstream.DoneLine :: rest => streamed_text rest
  end.

Definition is_done (o : Upstream.sse_out) : bool :=
  match o with
  | Upstream.DoneLine => true
  | Upstream.DataChunk _ => false
  end.

(** The two events that open a messages stream. *)
Definition opens (ev : Messages.event) : bool :=
  match ev with
  | Messages.message_start _ _ | Messages.content_block_start => true
  | _ => false
  end.

(** The character [c] does not occur in [s]. *)
Fixpoint lacks (c : Ascii.ascii) (s : string) : bool :=
  match s with
  | EmptyString => true
  | String x s' => negb (Ascii.eqb x c) && lacks c s'
  end.

Definition is_system (msg : Upstream.ChatMessage) : bool :=
  String.eqb (Upstream.role msg) "system".

(** An image part of a chat message with the given URL. *)
Definition image_part (url : string) : Upstream.ContentPart :=
  {| Upstream.part_type := "image_url"; Upstream.part_text := None;
     Upstream.image_url := Some url |}.

(** * Sample inputs *)

Module Sample.
Import TokenManager.

Definition tok (access : string) (expiry : Z) : AccountToken :=
  {| access_token := access; refresh_token := "1//" ++ access; expires_in := 3600;
     expiry_timestamp := expiry; project_id := None |}.

Definition acct (name : string) (tier : option string) (off proxy_off : option bool)
    (expiry : Z) : Account :=
  {| id := name; email := name ++ "@example.com"; token := tok ("ya29." ++ name) expiry;
     disabled := off; proxy_disabled := proxy_off; subscription_tier := tier |}.

(** The clock of the samples: 1 700 000 000 s, one millisecond per reading. *)
Definition clock (k : nat) : Z := 1700000000000 + Z.of_nat k.

Definition mixed : list Account :=
  [ acct "f1" (Some "FREE") None None 1700003600;
    acct "d1" (Some "ULTRA") (Some true) None 1700003600;
    acct "p1" (Some "PRO") (Some false) None 1700003600;
    acct "n1" None None None 1700003600;
    acct "u1" (Some "ULTRA") None (Some false) 1700003600;
    acct "x1" (Some "PRO") None (Some true) 1700003600;
    acct "f2" (Some "FREE") None None 1700003600;
    acct "p2" (Some "PRO") None None 1700003600 ].

Definition world_of (b : blob) (answer : FetchResult) : World :=
  {| ACCOUNTS_JSON := b; GOOGLE_CLIENT_ID := Some "client";
     GOOGLE_CLIENT_SECRET := Some "secret"; Date_now := clock;
     fetch_token := λ _ _, answer |}.

Definition granted : FetchResult :=
  HttpOk (Some {| data_access_token := "ya29.new"; data_expires_in := 3599 |}).

Definition revoked : FetchResult := HttpError "invalid_grant".

(** ACCOUNTS_JSON = '[null]' *)
Definition world_null : World := world_of (EnvArray [Null]) revoked.

(** One account whose token has run out, and whose refresh token the
    endpoint turns down. *)
Definition stale : Account := acct "s1" (Some "PRO") None None 1600000000.

Definition world_stale : World := world_of (EnvArray [Obj stale]) revoked.

(** A pool of three accounts with fresh tokens, loaded a moment ago, the
    cursor at 4. *)
Definition three : list elem :=
  [ Obj (acct "a" (Some "ULTRA") None None 1700003600);
    Obj (acct "b" (Some "PRO") None None 1700003600);
    Obj (acct "c" (Some "FREE") None None 1700003600) ].

Definition world_three : World := world_of (EnvArray three) granted.

Definition loaded_three : State :=
  {| accounts := three; currentIndex := 4; lastRefreshTime := 1700000000000;
     clock_reads := 0; fetches := 0; console := [] |}.

(** A pool of three accounts loaded a moment ago, the cursor at 0; the
    token of the first account has run out. *)
Definition worn_a : Account := acct "a" (Some "ULTRA") None None 1600000000.

Definition fresh_b : Account := acct "b" (Some "PRO") None None 1700003600.

Definition fresh_c : Account := acct "c" (Some "FREE") None None 1700003600.

Definition worn : list Account := [worn_a; fresh_b; fresh_c].

Definition loaded_worn : State :=
  {| accounts := Obj <$> worn; currentIndex := 0; lastRefreshTime := 1700000000000;
     clock_reads := 0; fetches := 0; console := [] |}.

(** The endpoint renews the token, or turns the refresh token down. *)
Definition world_worn_granted : World := world_of (EnvArray (Obj <$> worn)) granted.


End Sample.

Module SampleStream.
Import Gemini.

Definition counted (n : Z) : option UsageMetadata :=
  Some {| promptTokenCount := Some 8; candidatesTokenCount := Some n;
          totalTokenCount := Some (8 + n) |}.

Definition finish_chunk (reason : string) : Response :=
  chunk_with (Some [ {| text := Some "" |} ]) (Some reason) [] (counted 2).

(** What the upstream answers to a prompt it blocks: no candidate, and the
    count of the prompt's tokens. *)
Definition blocked : Response :=
  {| candidates := None;
     usageMetadata := Some {| promptTokenCount := Some 8; candidatesTokenCount := None;
                              totalTokenCount := Some 8 |} |}.

(** A stand-in for [JSON.parse], defined on the texts of the sample
    upstreams. *)
Definition parse (s : string) : option Response :=
  if String.eqb s "{hello}" then Some (text_chunk "Hello")
  else if String.eqb s "{world}" then Some (text_chunk " world")
  else if String.eqb s "{stop}" then Some (finish_chunk "STOP")
  else if String.eqb s "{max}" then Some (finish_chunk "MAX_TOKENS")
  else None.

Definition nl : string := String newline "".

(** An upstream of three events, delivered in three reads that do not end
    where the events end. *)
Definition hello_world_reads : list string :=
  [ ("data: {hello}" ++ nl ++ nl ++ "da")%string;
    ("ta: {world}" ++ nl)%string;
    (nl ++ "data: {stop}" ++ nl ++ nl)%string ].

(** An upstream of one event, a finish chunk that says MAX_TOKENS. *)
Definition truncated_reads : list string := [ ("data: {max}" ++ nl ++ nl)%string ].

Definition two_parts : Response :=
  chunk_with (Some [ {| text := Some "Hel" |}; {| text := Some "lo" |} ]) None [] None.

Definition key_ok : Auth.AuthResult := {| Auth.valid := true; Auth.error := None |}.

(** The body {"model": "claude-3-opus-20240229", "max_tokens": 16}. *)
Definition claude_no_messages : Messages.ClaudeRequest :=
  {| Messages.req_model := Some "claude-3-opus-20240229";
     Messages.req_messages := None;
     Messages.req_max_tokens := Some 16;
     Messages.req_stream := None; Messages.req_system := None;
     Messages.req_temperature := None; Messages.req_top_p := None;
     Messages.req_stop_sequences := None |}.

(** The body {"max_tokens": 16, "messages": [{"role": "user", "content": "Hi"}]}. *)
Definition claude_no_model : Messages.ClaudeRequest :=
  {| Messages.req_model := None;
     Messages.req_messages :=
       Some [ {| Messages.msg_role := "user"; Messages.msg_content := Messages.Plain "Hi" |} ];
     Messages.req_max_tokens := Some 16;
     Messages.req_stream := None; Messages.req_system := None;
     Messages.req_temperature := None; Messages.req_top_p := None;
     Messages.req_stop_sequences := None |}.

(** The body {"model": "gpt-4"}. *)
Definition openai_no_messages : Upstream.ChatCompletionRequest :=
  {| Upstream.req_model := Some "gpt-4"; Upstream.req_messages := None;
     Upstream.req_stream := None; Upstream.req_temperature := None;
     Upstream.req_max_tokens := None; Upstream.req_top_p := None;
     Upstream.req_stop := None |}.

(** The body {"messages": [{"role": "user", "content": "Hi"}]}. *)
Definition openai_no_model : Upstream.ChatCompletionRequest :=
  {| Upstream.req_model := None;
     Upstream.req_messages :=
       Some [ {| Upstream.role := "user"; Upstream.content := Upstream.Plain "Hi" |} ];
     Upstream.req_stream := None; Upstream.req_temperature := None;
     Upstream.req_max_tokens := None; Upstream.req_top_p := None;
     Upstream.req_stop := None |}.

(** The body {"model": "gpt-4", "messages": [{"role": "user", "content": "Hi"}]}. *)
Definition openai_hi : Upstream.ChatCompletionRequest :=
  {| Upstream.req_model := Some "gpt-4";
     Upstream.req_messages :=
       Some [ {| Upstream.role := "user"; Upstream.content := Upstream.Plain "Hi" |} ];
     Upstream.req_stream := None; Upstream.req_temperature := None;
     Upstream.req_max_tokens := None; Upstream.req_top_p := None;
     Upstream.req_stop := None |}.

Definition credential : option (TokenManager.Account * string) :=
  Some (Sample.acct "a" (Some "PRO") None None 1700003600, "ya29.a").

End SampleStream.

(** * Tactics *)

(** State about the call of refreshToken in the goal the fact that [lem]
    proves of it, then name the three components of its result. *)
Ltac name_refresh lem r a s :=
  match goal with
  | |- context [TokenManager.refreshToken ?w ?st ?acc] =>
      generalize (lem st acc);
      destruct (TokenManager.refreshToken w st acc) as [[r a] s]
  end.

(** * Properties *)

(** ** Reload: filtering and ordering of the pool *)

Section LoadAccounts.
Import TokenManager.

Lemma compare_tier_le a b : (compare_tier a b <=? 0) = true ↔ priority a ≤ priority b.
Proof. unfold compare_tier, priority. rewrite Z.leb_le. lia. Qed.

Lemma insert_by_perm x l : insert_by compare_tier x l ≡ₚ x :: l.
Proof.
  induction l as [|y l IH]; simpl; [done|].
  destruct (compare_tier x y <=? 0); [done|].
  rewrite IH. apply Permutation_swap.
Qed.

Lemma sort_perm l : sort compare_tier l ≡ₚ l.
Proof.
  induction l as [|x l IH]; simpl; [done|].
  rewrite insert_by_perm. by rewrite IH.
Qed.

Lemma insert_by_sorted x l :
  StronglySorted by_priority l → StronglySorted by_priority (insert_by compare_tier x l).
Proof.
  induction 1 as [|y l Hl IH Hy]; simpl.
  - repeat constructor.
  - destruct (compare_tier x y <=? 0) eqn:E.
    + apply compare_tier_le in E.
      constructor; [by constructor|].
      constructor; [done|].
      eapply Forall_impl; [exact Hy|]. unfold by_priority. intros; lia.
    + assert (priority y ≤ priority x).
      { destruct (Z.leb_spec (compare_tier x y) 0); [done|].
        unfold compare_tier, priority in *. lia. }
      constructor; [done|].
      rewrite insert_by_perm. by constructor.
Qed.

Lemma sort_sorted l : StronglySorted by_priority (sort compare_tier l).
Proof.
  induction l as [|x l IH]; simpl; [constructor|]. by apply insert_by_sorted.
Qed.

Lemma insert_by_filter p x l :
  filter (λ a, priority a = p) (insert_by compare_tier x l)
  = filter (λ a, priority a = p) (x :: l).
Proof.
  induction l as [|y l IH]; simpl; [done|].
  destruct (compare_tier x y <=? 0) eqn:E; [done|].
  assert (priority x ≠ priority y).
  { destruct (Z.leb_spec (compare_tier x y) 0); [done|].
    unfold compare_tier, priority in *. lia. }
  rewrite (filter_cons _ y), IH, !filter_cons.
  repeat case_decide; congruence.
Qed.

Lemma sort_stable p l :
  filter (λ a, priority a = p) (sort compare_tier l) = filter (λ a, priority a = p) l.
Proof.
  induction l as [|x l IH]; simpl; [done|].
  rewrite insert_by_filter, !filter_cons, IH. done.
Qed.

(** The three properties above determine the outcome: whatever stable
    algorithm the engine runs, the array it leaves is [sort compare_tier]. *)
Lemma sorted_stable_unique l1 l2 :
  StronglySorted by_priority l1 → StronglySorted by_priority l2 →
  (∀ p, filter (λ a, priority a = p) l1 = filter (λ a, priority a = p) l2) →
  l1 = l2.
Proof.
  intros H1. revert l2.
  induction H1 as [|a l1 Hl1 IH Ha]; intros l2 H2 Hf.
  - destruct l2 as [|b l2]; [done|].
    specialize (Hf (priority b)). rewrite filter_cons_True in Hf by done. done.
  - destruct H2 as [|b l2 Hl2 Hb].
    { specialize (Hf (priority a)). rewrite filter_cons_True in Hf by done. done. }
    destruct (decide (priority a = priority b)) as [E|E].
    + pose proof (Hf (priority a)) as Hfa.
      rewrite !filter_cons_True in Hfa by done.
      injection Hfa as -> Hfa. f_equal. apply IH; [done|].
      intros p. specialize (Hf p). rewrite !filter_cons in Hf.
      case_decide; congruence.
    + exfalso.
      assert (a ∈ b :: l2) as Ha2.
      { eapply (list_elem_of_filter (λ x, priority x = priority a)).
        rewrite <- Hf, filter_cons_True by done. left. }
      assert (b ∈ a :: l1) as Hb1.
      { eapply (list_elem_of_filter (λ x, priority x = priority b)).
        rewrite Hf, filter_cons_True by done. left. }
      rewrite Forall_forall in Ha, Hb. unfold by_priority in *.
      apply elem_of_cons in Ha2 as [->|Ha2]; [done|].
      apply elem_of_cons in Hb1 as [->|Hb1]; [done|].
      specialize (Ha _ Hb1). specialize (Hb _ Ha2). lia.
Qed.

Lemma sort_unique l l' :
  StronglySorted by_priority l' →
  (∀ p, filter (λ a, priority a = p) l' = filter (λ a, priority a = p) l) →
  l' = sort compare_tier l.
Proof.
  intros Hs Hf. apply sorted_stable_unique; [done|apply sort_sorted|].
  intros p. by rewrite sort_stable.
Qed.

Lemma filter_enabled_objects l :
  filter_enabled (Obj <$> l) = Some (filter (λ a, enabled a = true) l).
Proof.
  induction l as [|a l IH]; [done|].
  rewrite fmap_cons. simpl. rewrite IH, filter_cons.
  destruct (enabled a); by case_decide.
Qed.

Lemma sorted_lookup_order (l : list Account) i j a b :
  StronglySorted by_priority l →
  l !! i = Some a → l !! j = Some b → priority a < priority b → (i < j)%nat.
Proof.
  intros Hs. revert i j.
  induction Hs as [|x l Hl IH Hx]; intros i j Hi Hj Hlt; [done|].
  rewrite Forall_forall in Hx.
  destruct i as [|i], j as [|j]; simpl in *.
  - simplify_eq. lia.
  - lia.
  - simplify_eq. apply list_elem_of_lookup_2, Hx in Hi.
    unfold by_priority in Hi. lia.
  - apply ->Nat.succ_lt_mono. by apply IH.
Qed.

End LoadAccounts.

Section Reload.
Import TokenManager.

Lemma enabled_flags a :
  enabled a = true ↔ disabled a ≠ Some true ∧ proxy_disabled a ≠ Some true.
Proof.
  unfold enabled, flag_set.
  destruct (disabled a) as [[]|], (proxy_disabled a) as [[]|]; simpl;
    split; try done; intros []; congruence.
Qed.

Lemma loadAccounts_objects w st l :
  ACCOUNTS_JSON w = EnvArray (Obj <$> l) →
  accounts (snd (loadAccounts w st))
  = Obj <$> sort compare_tier (filter (λ a, enabled a = true) l).
Proof.
  intros E. unfold loadAccounts. rewrite E, filter_enabled_objects. done.
Qed.

(** C3. After a reload on an array of account objects [l], the pool is a
    list of accounts none of which has [disabled] or [proxy_disabled] set.
    With the rank of an account read off its tier (ULTRA 0, PRO 1, FREE 2,
    any other or no tier 3), an account of strictly smaller rank, that is of
    strictly higher priority, stands before every account of larger rank;
    for each rank the accounts of that rank are, in the same order, those of
    that rank among the enabled accounts of the input; and the pool holds
    the enabled accounts of the input, each as often as the input does. *)
Theorem loadAccounts_enabled_sorted_stable (w : World) (st : State) (l : list Account) :
  let rank (a : Account) : Z :=
    match subscription_tier a with
    | Some "ULTRA" => 0
    | Some "PRO" => 1
    | Some "FREE" => 2
    | _ => 3
    end in
  ACCOUNTS_JSON w = EnvArray (Obj <$> l) →
  ∃ pool : list Account,
    accounts (snd (loadAccounts w st)) = Obj <$> pool
    ∧ (∀ a, a ∈ pool → disabled a ≠ Some true ∧ proxy_disabled a ≠ Some true)
    ∧ (∀ i j a b, pool !! i = Some a → pool !! j = Some b →
         rank a < rank b → (i < j)%nat)
    ∧ (∀ p, filter (λ a, rank a = p) pool
            = filter (λ a, rank a = p) (filter (λ a, enabled a = true) l))
    ∧ pool ≡ₚ filter (λ a, enabled a = true) l.
Proof.
  intros rank E.
  assert (∀ a, rank a = priority a) as Hrank by reflexivity.
  eexists. split; [by apply loadAccounts_objects|].
  split; [|split; [|split]].
  - intros a Ha. rewrite sort_perm in Ha.
    apply list_elem_of_filter in Ha as [Ha _]. by apply enabled_flags.
  - intros i j a b. rewrite !Hrank. apply sorted_lookup_order, sort_sorted.
  - intros p. apply sort_stable.
  - apply sort_perm.
Qed.

(** On the sample list: the pool is u1 (ULTRA), p1, p2 (PRO), f1, f2
    (FREE), n1 (no tier), the disabled d1 and x1 left out. *)
Lemma loadAccounts_enabled_sorted_stable_witness :
  ∃ pool : list Account,
    accounts (snd (loadAccounts (Sample.world_of (EnvArray (Obj <$> Sample.mixed))
                                   Sample.revoked) initial)) = Obj <$> pool
    ∧ id <$> pool = ["u1"; "p1"; "p2"; "f1"; "f2"; "n1"]
    ∧ pool ≡ₚ filter (λ a, enabled a = true) Sample.mixed.
Proof.
  destruct (loadAccounts_enabled_sorted_stable
              (Sample.world_of (EnvArray (Obj <$> Sample.mixed)) Sample.revoked)
              initial Sample.mixed) as (pool & Hpool & _ & _ & _ & Hperm).
  - reflexivity.
  - exists pool. split; [exact Hpool|]. split; [|exact Hperm].
    assert (Inj (=) (=) Obj) as HObj by (intros x y [= ->]; reflexivity).
    apply (inj (fmap Obj)) in Hpool. by rewrite <- Hpool.
Defined.

Example tierPriority_values :
  tierPriority (Some "ULTRA") = 0 ∧ tierPriority (Some "PRO") = 1
  ∧ tierPriority (Some "FREE") = 2 ∧ tierPriority None = 3
  ∧ tierPriority (Some "ultra") = 3.
Proof. repeat split. Qed.

(** The pool the sample comes to: u1, p1, p2, f1, f2, n1. *)
Example loadAccounts_mixed :
  id <$> (sort compare_tier (filter (λ a, enabled a = true) Sample.mixed))
  = ["u1"; "p1"; "p2"; "f1"; "f2"; "n1"].
Proof. reflexivity. Qed.

(** Whatever the text is, a reload hands an array back: it has no way to
    throw. When the text does not parse, or an element is not an object,
    the caller gets the empty array and the failure is on the console; the
    module variable is what line 33 left in it. *)
Lemma loadAccounts_failure w st :
  ACCOUNTS_JSON w = EnvMalformed
  ∨ (∃ l, ACCOUNTS_JSON w = EnvArray l ∧ filter_enabled l = None) →
  fst (loadAccounts w st) = []
  ∧ console (snd (loadAccounts w st)) = Err_load_failed :: console st
  ∧ accounts (snd (loadAccounts w st))
    = match ACCOUNTS_JSON w with EnvArray l => l | _ => accounts st end.
Proof.
  unfold loadAccounts. intros [E|(l & E & F)]; rewrite E; [done|].
  by rewrite F.
Qed.

(** C4, at the text '[null]' in a fresh process: the reload does not throw,
    hands back the empty array and logs the failure, but the pool is left
    holding the parsed array, of length one, and the next acquisition ends
    in a TypeError. *)
Theorem loadAccounts_null_element_leaves_pool :
  fst (loadAccounts Sample.world_null initial) = []
  ∧ console (snd (loadAccounts Sample.world_null initial)) = [Err_load_failed]
  ∧ accounts (snd (loadAccounts Sample.world_null initial)) = [Null]
  ∧ fst (getAccountCount Sample.world_null initial) = 1%nat
  ∧ fst (getToken 1 Sample.world_null initial) = Rejected.
Proof. repeat split. Qed.

End Reload.

(** ** Refresh *)

Section Refresh.
Import TokenManager.

(** C5. A refresh either leaves the account as it was and returns no token,
    which is what happens whenever the endpoint answers with a non-success
    status or the transport fails, or, when the endpoint grants a token,
    returns that token and sets exactly [access_token], [expires_in] and
    [expiry_timestamp], the latter to the current second plus [expires_in]. *)
Theorem refreshToken_all_or_nothing (w : World) (st : State) (account : Account) :
  let answer := fetch_token w (fetches st) (refresh_token (token account)) in
  let result := (refreshToken w st account).1.1 in
  let account' := (refreshToken w st account).1.2 in
  (answer = TransportFailure ∨ (∃ body, answer = HttpError body) →
     result = None ∧ account' = account)
  ∧ (result = None → account' = account)
  ∧ (∀ data,
       truthy_opt (GOOGLE_CLIENT_ID w) = true →
       truthy_opt (GOOGLE_CLIENT_SECRET w) = true →
       answer = HttpOk (Some data) →
       result = Some (data_access_token data)
       ∧ account' =
           {| id := id account; email := email account;
              token :=
                {| access_token := data_access_token data;
                   refresh_token := refresh_token (token account);
                   expires_in := data_expires_in data;
                   expiry_timestamp :=
                     Date_now w (clock_reads st) / 1000 + data_expires_in data;
                   project_id := project_id (token account) |};
              disabled := disabled account;
              proxy_disabled := proxy_disabled account;
              subscription_tier := subscription_tier account |}).
Proof.
  cbv zeta. unfold refreshToken, call_endpoint.
  destruct (truthy_opt (GOOGLE_CLIENT_ID w)), (truthy_opt (GOOGLE_CLIENT_SECRET w));
    simpl; try (split; [done|split; [done|intros; done]]).
  destruct (fetch_token w (fetches st) (refresh_token (token account)))
    as [|body|[data|]]; simpl.
  - split; [done|]. split; [done|]. intros; done.
  - split; [done|]. split; [done|]. intros; done.
  - split; [intros [|[]]; done|]. split; [done|].
    intros data' _ _ [= <-]. done.
  - split; [done|]. split; [done|]. intros; done.
Qed.

Lemma refreshToken_all_or_nothing_witness :
  ((refreshToken (Sample.world_of EnvUnset Sample.revoked) initial Sample.stale).1.1 = None
   ∧ (refreshToken (Sample.world_of EnvUnset Sample.revoked) initial Sample.stale).1.2
     = Sample.stale)
  ∧ ((refreshToken (Sample.world_of EnvUnset Sample.granted) initial Sample.stale).1.1
     = Some "ya29.new"
     ∧ token (refreshToken (Sample.world_of EnvUnset Sample.granted) initial Sample.stale).1.2
       = {| access_token := "ya29.new"; refresh_token := "1//ya29.s1";
            expires_in := 3599; expiry_timestamp := 1700003599; project_id := None |}).
Proof.
  split.
  - apply (refreshToken_all_or_nothing
             (Sample.world_of EnvUnset Sample.revoked) initial Sample.stale).
    right. exists "invalid_grant". reflexivity.
  - destruct (refreshToken_all_or_nothing
                (Sample.world_of EnvUnset Sample.granted) initial Sample.stale)
      as (_ & _ & H).
    destruct (H {| data_access_token := "ya29.new"; data_expires_in := 3599 |})
      as [H1 H2]; [reflexivity..|].
    split; [exact H1|]. rewrite H2. reflexivity.
Defined.

End Refresh.

(** ** Acquisition *)

Section Acquire.
Import TokenManager.

Lemma loadAccounts_frame w st :
  currentIndex (snd (loadAccounts w st)) = currentIndex st
  ∧ refresh_attempts (snd (loadAccounts w st)) = refresh_attempts st.
Proof.
  unfold loadAccounts. destruct (ACCOUNTS_JSON w) as [| |l]; [done..|].
  by destruct (filter_enabled l).
Qed.

Lemma getToken_reload_frame w st :
  currentIndex (getToken_reload w st) = currentIndex st
  ∧ refresh_attempts (getToken_reload w st) = refresh_attempts st.
Proof.
  unfold getToken_reload.
  destruct (reload_due w st); [|by destruct (length (accounts st) =? 0)%nat].
  match goal with |- context [loadAccounts w ?s] =>
    pose proof (loadAccounts_frame w s) as (H1 & H2);
    destruct (loadAccounts w s) as [r s'] end.
  simpl in *. unfold refresh_attempts in *. simpl.
  rewrite H1, H2. by destruct (length (accounts st) =? 0)%nat.
Qed.

Lemma getToken_reload_not_due w st :
  reload_due w st = false →
  accounts (getToken_reload w st) = accounts st
  ∧ lastRefreshTime (getToken_reload w st) = lastRefreshTime st
  ∧ clock_reads (getToken_reload w st) = S (clock_reads st)
  ∧ accounts st ≠ [].
Proof.
  unfold getToken_reload. intros E. rewrite E.
  unfold reload_due in E. apply orb_false_elim in E as [E _].
  rewrite E. simpl. repeat split. intros H. by rewrite H in E.
Qed.

Lemma getToken_reload_due w st :
  reload_due w st = true →
  ∃ st0, accounts (getToken_reload w st) = accounts (snd (loadAccounts w st0)).
Proof.
  unfold getToken_reload. intros E. rewrite E.
  match goal with |- context [loadAccounts w ?s] =>
    exists s; destruct (loadAccounts w s) as [r s'] end.
  done.
Qed.

(** A fresh process whose list holds three accounts with fresh tokens: the
    first call reloads and returns the first account with its token. *)
Example getToken_fresh :
  fst (getToken 1 Sample.world_three initial)
  = Resolved (Some (Sample.acct "a" (Some "ULTRA") None None 1700003600, "ya29.a")).
Proof. reflexivity. Qed.

(** With an empty list there is nothing to return, and nothing is thrown. *)
Example getToken_no_accounts :
  getToken 1 (Sample.world_of EnvUnset Sample.granted) initial
  = (Resolved None,
     {| accounts := []; currentIndex := 0; lastRefreshTime := 1700000000000;
        clock_reads := 1; fetches := 0;
        console := [Err_no_accounts; Log_loaded 0] |}).
Proof. reflexivity. Qed.

(** A token that has run out is refreshed once; the call returns the new
    token, and the account in the pool carries it from then on. *)
Example getToken_refreshes :
  let w := Sample.world_of (EnvArray [Obj Sample.stale]) Sample.granted in
  fst (getToken 1 w initial)
  = Resolved (Some (with_token Sample.stale
                      {| access_token := "ya29.new"; refresh_token := "1//ya29.s1";
                         expires_in := 3599; expiry_timestamp := 1700003599;
                         project_id := None |}, "ya29.new"))
  ∧ (∃ a, accounts (snd (getToken 1 w initial)) = [Obj a]
          ∧ access_token (token a) = "ya29.new")
  ∧ refresh_attempts (snd (getToken 1 w initial)) = 1%nat.
Proof. repeat split. eexists. split; reflexivity. Qed.

(** Throughout this section no refresh succeeds, and the account list of
    the environment is a list [l] of account objects, some of them enabled,
    whose tokens are about to expire whenever the clock is read. *)
Section Doomed.
Variable w : World.
Variable l : list Account.
Hypothesis no_refresh : refresh_always_fails w.
Hypothesis blob_is_l : ACCOUNTS_JSON w = EnvArray (Obj <$> l).
Hypothesis all_expiring : ∀ a, a ∈ l → expiring_forever w a.
Hypothesis some_enabled : filter (λ a, enabled a = true) l ≠ [].

Lemma refreshToken_fails st a :
  (refreshToken w st a).1.1 = None
  ∧ (refreshToken w st a).1.2 = a
  ∧ accounts (refreshToken w st a).2 = accounts st
  ∧ refresh_attempts (refreshToken w st a).2 = refresh_attempts st.
Proof.
  pose proof no_refresh as H.
  unfold refresh_always_fails in H. unfold refreshToken, call_endpoint.
  destruct (truthy_opt (GOOGLE_CLIENT_ID w)), (truthy_opt (GOOGLE_CLIENT_SECRET w));
    simpl; try done.
  destruct H as [H|H]; [by simpl in H|].
  specialize (H (fetches st) (refresh_token (token a))).
  destruct (fetch_token w (fetches st) (refresh_token (token a))) as [| |[d|]];
    simpl; try done.
  by destruct (H d).
Qed.

Lemma getToken_check_doomed st slot e :
  doomed w e → accounts st !! slot = Some e →
  fst (getToken_check w st slot (Some e)) = Recurse
  ∧ accounts (snd (getToken_check w st slot (Some e))) = accounts st
  ∧ refresh_attempts (snd (getToken_check w st slot (Some e)))
    = S (refresh_attempts st).
Proof.
  intros (a & -> & Ha) Hslot. unfold getToken_check, now_ms.
  destruct (Z.geb_spec (Date_now w (clock_reads st) / 1000)
              (expiry_timestamp (token a) - 300)) as [_|Hlt].
  2: { specialize (Ha (clock_reads st)). lia. }
  name_refresh refreshToken_fails r a' s'. intros (H1 & H2 & H3 & H4).
  simpl in *. subst. simpl. split; [done|].
  rewrite H3. split; [by apply list_insert_id|exact H4].
Qed.

(** The pool after the reload of lines 64-67 is not empty and holds doomed
    accounts only, if it held such before. *)
Lemma getToken_reload_doomed st :
  Forall (doomed w) (accounts st) →
  Forall (doomed w) (accounts (getToken_reload w st))
  ∧ accounts (getToken_reload w st) ≠ [].
Proof.
  intros Hst. destruct (reload_due w st) eqn:E.
  - apply getToken_reload_due in E as [st0 ->].
    rewrite (loadAccounts_objects w st0 l blob_is_l). split.
    + apply Forall_fmap, Forall_forall. intros a Ha.
      exists a. split; [done|]. apply all_expiring.
      rewrite sort_perm in Ha. by apply list_elem_of_filter in Ha as [_ Ha].
    + intros H. apply fmap_nil_inv in H. apply some_enabled.
      apply Permutation_nil_r. rewrite <- H. symmetry. apply sort_perm.
  - apply getToken_reload_not_due in E as (-> & _ & _ & ?). done.
Qed.

Lemma getToken_once_doomed st :
  Forall (doomed w) (accounts st) →
  fst (getToken_once w st) = Recurse
  ∧ Forall (doomed w) (accounts (snd (getToken_once w st)))
  ∧ refresh_attempts (snd (getToken_once w st)) = S (refresh_attempts st).
Proof.
  intros Hst. unfold getToken_once.
  destruct (getToken_reload_doomed st Hst) as [H1 H2].
  set (st1 := getToken_reload w st) in *.
  destruct (accounts st1) as [|e0 rest] eqn:Eacc; [done|]. clear H2.
  change (length (e0 :: rest) =? 0)%nat with false. cbv iota.
  unfold getToken_select.
  set (slot := (currentIndex st1 mod length (accounts st1))%nat).
  destruct (lookup_lt_is_Some_2 (accounts st1) slot) as [e He].
  { subst slot. apply Nat.mod_upper_bound. by rewrite Eacc. }
  rewrite <- Eacc. fold slot. rewrite He.
  assert (doomed w e) as Hd.
  { rewrite Forall_forall in H1. apply H1. rewrite <- Eacc.
    by eapply list_elem_of_lookup_2. }
  destruct (getToken_check_doomed (incr_currentIndex st1) slot e Hd He)
    as (-> & -> & ->).
  split; [done|]. simpl. rewrite Eacc. split; [done|].
  f_equal. apply getToken_reload_frame.
Qed.

(** However much fuel there is, getToken has not returned when it is used
    up, and every invocation has made one more refresh attempt. *)
Lemma getToken_doomed fuel st :
  Forall (doomed w) (accounts st) →
  fst (getToken fuel w st) = OutOfFuel
  ∧ refresh_attempts (snd (getToken fuel w st)) = (refresh_attempts st + fuel)%nat.
Proof.
  revert st.
  induction fuel as [|fuel IH]; intros st Hst; [split; [done|simpl; lia]|]. simpl.
  destruct (getToken_once_doomed st Hst) as (H1 & H2 & H3).
  destruct (getToken_once w st) as [r st']. simpl in *. subst r.
  destruct (IH st' H2) as [-> ->]. split; [done|lia].
Qed.

End Doomed.

(** C1, at a pool of one account whose token has run out and whose refresh
    is turned down: however many invocations are allowed, getToken has not
    returned, and it has made as many refresh attempts as invocations, so
    more than there are accounts. *)
Theorem getToken_recurses_forever :
  ∀ fuel,
    fst (getToken fuel Sample.world_stale initial) = OutOfFuel
    ∧ refresh_attempts (snd (getToken fuel Sample.world_stale initial)) = fuel.
Proof.
  intros fuel.
  apply (getToken_doomed Sample.world_stale [Sample.stale]).
  - right. intros k rt data. discriminate.
  - reflexivity.
  - intros a ->%list_elem_of_singleton k. unfold expiring_forever. simpl.
    unfold Sample.clock.
    apply Z.div_le_lower_bound; lia.
  - discriminate.
  - constructor.
Qed.

End Acquire.

(** ** Rotation *)

Section Rotation.
Import TokenManager.

Lemma refreshToken_frame w st a :
  accounts (refreshToken w st a).2 = accounts st
  ∧ currentIndex (refreshToken w st a).2 = currentIndex st.
Proof.
  unfold refreshToken, call_endpoint.
  destruct (negb (truthy_opt (GOOGLE_CLIENT_ID w))
            || negb (truthy_opt (GOOGLE_CLIENT_SECRET w))); [done|].
  by destruct (fetch_token w (fetches st) (refresh_token (token a))) as [| |[d|]].
Qed.

(** Lines 79-90 touch no slot of the pool but the one the account was taken
    from, and leave the cursor alone. *)
Lemma getToken_check_frame w st slot account :
  currentIndex (snd (getToken_check w st slot account)) = currentIndex st
  ∧ length (accounts (snd (getToken_check w st slot account))) = length (accounts st)
  ∧ ∀ j, j ≠ slot →
      accounts (snd (getToken_check w st slot account)) !! j = accounts st !! j.
Proof.
  unfold getToken_check, now_ms.
  destruct account as [[a|]|]; [|done..].
  destruct (Date_now w (clock_reads st) / 1000 >=? expiry_timestamp (token a) - 300);
    [|done].
  name_refresh (refreshToken_frame w) r a' s'. intros [H1 H2].
  simpl in *.
  destruct (truthy_opt r); simpl; rewrite H1, H2, length_insert;
    (split; [done|split; [done|]]); intros j Hj; by apply list_lookup_insert_ne.
Qed.

Lemma getToken_once_not_due w st :
  reload_due w st = false →
  currentIndex (snd (getToken_once w st)) = S (currentIndex st)
  ∧ length (accounts (snd (getToken_once w st))) = length (accounts st)
  ∧ (∀ j, j ≠ (currentIndex st mod length (accounts st))%nat →
       accounts (snd (getToken_once w st)) !! j = accounts st !! j)
  ∧ picked w st = accounts st !! (currentIndex st mod length (accounts st))%nat.
Proof.
  intros E. unfold picked, getToken_once, getToken_select.
  destruct (getToken_reload_not_due w st E) as (Ha & _ & _ & Hne).
  destruct (getToken_reload_frame w st) as [Hc _].
  set (st1 := getToken_reload w st) in *.
  rewrite Ha, Hc.
  destruct (accounts st) as [|e0 rest] eqn:Eacc; [done|].
  change (length (e0 :: rest) =? 0)%nat with false. cbv iota.
  rewrite <- Eacc in *. simpl.
  match goal with |- context [getToken_check w ?s ?i ?a] =>
    destruct (getToken_check_frame w s i a) as (H1 & H2 & H3) end.
  simpl in *. rewrite H1, H2, Hc, Ha. repeat split; try done.
  intros j Hj. by rewrite H3, Ha.
Qed.

Lemma mod_slots_distinct (c k j n : nat) :
  (k < j)%nat → (j < n)%nat → ((c + j) mod n ≠ (c + k) mod n)%nat.
Proof.
  intros Hkj Hjn E.
  pose proof (Nat.div_mod_eq (c + j) n) as Dj.
  pose proof (Nat.div_mod_eq (c + k) n) as Dk.
  rewrite E in Dj.
  assert ((c + k) `div` n < (c + j) `div` n ∨ (c + j) `div` n ≤ (c + k) `div` n)%nat
    as [Hlt|Hle] by lia; nia.
Qed.

Lemma rotate_nat_add_mod (c i n : nat) : rotate_nat_add c i n = ((c + i) mod n)%nat.
Proof.
  unfold rotate_nat_add.
  by rewrite <- Nat2Z.inj_add, <- Nat2Z.inj_mod, Nat2Z.id.
Qed.


(** As long as no reload is due, [k] invocations move the cursor by [k] and
    leave alone every slot that the next invocations up to the [n]-th are
    going to take. *)
Lemma after_not_due w st k :
  (k ≤ length (accounts st))%nat →
  (∀ i, (i < k)%nat → reload_due w (after w i st) = false) →
  currentIndex (after w k st) = (currentIndex st + k)%nat
  ∧ length (accounts (after w k st)) = length (accounts st)
  ∧ ∀ j, (k ≤ j)%nat → (j < length (accounts st))%nat →
      accounts (after w k st) !! ((currentIndex st + j) mod length (accounts st))%nat
      = accounts st !! ((currentIndex st + j) mod length (accounts st))%nat.
Proof.
  induction k as [|k IH]; intros Hk Hdue.
  { simpl. split; [lia|]. done. }
  destruct IH as (Hc & Hlen & Hslots); [lia|intros; apply Hdue; lia|].
  change (after w (S k) st) with (snd (getToken_once w (after w k st))).
  destruct (getToken_once_not_due w (after w k st)) as (H1 & H2 & H3 & _).
  { apply Hdue. lia. }
  rewrite H1, H2, Hc, Hlen. split; [lia|]. split; [done|].
  intros j Hkj Hj. rewrite H3.
  - apply Hslots; lia.
  - rewrite Hc, Hlen. apply mod_slots_distinct; lia.
Qed.

(** Take a pool of [N] elements and [N] consecutive invocations of
    getToken none of which finds a reload due. Then the elements they take
    at line 75 are, in order, the pool read cyclically from the slot
    [cursor mod N]. *)
Lemma picks_round_robin (w : World) (st : State) :
  let N := length (accounts st) in
  (∀ k, (k < N)%nat → reload_due w (after w k st) = false) →
  picks w N st = Some <$> rotate (currentIndex st) (accounts st)
  ∧ (∀ k, (k < N)%nat →
       picked w (after w k st)
       = accounts (after w k st) !! (currentIndex (after w k st) mod N)%nat
       ∧ currentIndex (after w (S k) st) = S (currentIndex (after w k st))
       ∧ currentIndex (after w k st) = (currentIndex st + k)%nat).
Proof.
  intros N Hdue. split.
  - apply list_eq. intros i. unfold picks.
    rewrite !list_lookup_fmap.
    destruct (decide (i < N)%nat) as [Hi|Hi].
    + rewrite lookup_seq_lt by done. simpl.
      destruct (after_not_due w st i) as (Hc & Hlen & Hslots);
        [subst N; lia|intros; apply Hdue; lia|].
      destruct (getToken_once_not_due w (after w i st)) as (_ & _ & _ & ->);
        [by apply Hdue|].
      rewrite Hc, Hlen, Hslots by (subst N; lia).
      rewrite lookup_rotate_r by done. rewrite rotate_nat_add_mod.
      fold N. destruct (lookup_lt_is_Some_2 (accounts st) ((currentIndex st + i) mod N))
        as [e ->]; [|done].
      apply Nat.mod_upper_bound. lia.
    + rewrite lookup_seq_ge by lia. simpl.
      rewrite lookup_ge_None_2; [done|]. rewrite length_rotate. fold N. lia.
  - intros k Hk.
    destruct (after_not_due w st k) as (Hc & Hlen & _);
      [subst N; lia|intros; apply Hdue; lia|].
    destruct (getToken_once_not_due w (after w k st)) as (H1 & _ & _ & H4);
      [by apply Hdue|].
    rewrite H4, Hlen. done.
Qed.

(** The sample pool a, b, c with the cursor at 4 is taken in the order
    b, c, a. *)
Example picks_three :
  picks Sample.world_three 3 Sample.loaded_three
  = [Sample.three !! 1%nat; Sample.three !! 2%nat; Sample.three !! 0%nat].
Proof. reflexivity. Qed.

(** An invocation that does not go through line 87 is a whole call. *)
Lemma getToken_one_invocation w st fuel :
  fst (getToken_once w st) ≠ Recurse →
  snd (getToken (S fuel) w st) = snd (getToken_once w st).
Proof.
  simpl. destruct (getToken_once w st) as [[r| |] st']; simpl; done.
Qed.

(** When none of [n] consecutive calls meets a failing refresh, the calls
    are the invocations, and the rotation above is that of the calls. *)
Lemma after_calls_invocations w st fuel n :
  (∀ k, (k < n)%nat → fst (getToken_once w (after w k st)) ≠ Recurse) →
  after_calls w (S fuel) n st = after w n st.
Proof.
  induction n as [|n IH]; intros H; [done|].
  change (after_calls w (S fuel) (S n) st)
    with (snd (getToken (S fuel) w (after_calls w (S fuel) n st))).
  rewrite IH by (intros; apply H; lia).
  apply getToken_one_invocation, H. lia.
Qed.

(** The account a call returns is the one taken at line 75, with its token
    refreshed if it was about to expire. *)
Lemma getToken_once_returns_picked w st a t :
  fst (getToken_once w st) = Return (Some (a, t)) →
  ∃ a0, picked w st = Some (Obj a0) ∧ id a = id a0 ∧ email a = email a0
        ∧ refresh_token (token a) = refresh_token (token a0).
Proof.
  unfold picked, getToken_once, getToken_select.
  set (st1 := getToken_reload w st).
  destruct (length (accounts st1) =? 0)%nat; [done|]. simpl.
  unfold getToken_check, now_ms.
  destruct (accounts st1 !! (currentIndex st1 mod length (accounts st1))%nat)
    as [[a0|]|]; [|done..].
  destruct (_ / 1000 >=? _).
  - match goal with |- context [refreshToken w ?s a0] =>
      destruct (refreshToken w s a0) as [[r a'] s'] eqn:E end.
    simpl in *. destruct r as [r|]; simpl; [|done].
    destruct (truthy r); simpl; [|done]. intros [= <- <-].
    exists a0. split; [done|].
    revert E. unfold refreshToken, call_endpoint.
    destruct (negb (truthy_opt (GOOGLE_CLIENT_ID w))
              || negb (truthy_opt (GOOGLE_CLIENT_SECRET w))); [done|].
    match goal with |- context [fetch_token w ?k ?rt] =>
      destruct (fetch_token w k rt) as [| |[d|]] end; try done.
    simpl. by intros [= _ <- _].
  - simpl. intros [= <- <-]. by exists a0.
Qed.

(** When a refresh returns a token, it is the one the account now carries. *)
Lemma refreshToken_returns_current w st a t :
  (refreshToken w st a).1.1 = Some t →
  access_token (token (refreshToken w st a).1.2) = t.
Proof.
  unfold refreshToken, call_endpoint.
  destruct (negb (truthy_opt (GOOGLE_CLIENT_ID w))
            || negb (truthy_opt (GOOGLE_CLIENT_SECRET w))); [done|].
  destruct (fetch_token w (fetches st) (refresh_token (token a))) as [| |[d|]];
    simpl; try done.
  by intros [= <-].
Qed.






(** The three calls of the sample, one by one. *)
Example calls_worn_granted :
  (λ k, call_result Sample.world_worn_granted 1 k Sample.loaded_worn) <$> [0; 1; 2]%nat
  = [ Resolved (Some (with_token Sample.worn_a
                        {| access_token := "ya29.new"; refresh_token := "1//ya29.a";
                           expires_in := 3599; expiry_timestamp := 1700003599;
                           project_id := None |}, "ya29.new"));
      Resolved (Some (Sample.fresh_b, "ya29.b"));
      Resolved (Some (Sample.fresh_c, "ya29.c")) ].
Proof. vm_compute. reflexivity. Qed.


End Rotation.

(** ** Response translation *)

Section Translation.
Import Gemini.

(** The mapping of lines 93-94 of lib/upstream.ts. *)
Lemma finishReason_of_cases (c : Candidate) :
  (finishReason c = Some "STOP" → Upstream.finishReason_of c = "stop")
  ∧ (finishReason c = Some "MAX_TOKENS" → Upstream.finishReason_of c = "length")
  ∧ (finishReason c ≠ Some "MAX_TOKENS" → Upstream.finishReason_of c = "stop").
Proof.
  unfold Upstream.finishReason_of.
  split; [by intros ->|]. split; [by intros ->|].
  intros H. destruct (finishReason c) as [r|]; [|done].
  destruct (decide (r = "MAX_TOKENS")) as [->|Hr]; [done|].
  destruct (decide (r = "STOP")) as [->|Hs]; [done|].
  repeat (match goal with
          | |- context [match ?x with _ => _ end] => destruct x; try done
          end).
Qed.

(** The mapping of lines 86-87 of messages/route.ts. *)
Lemma stopReason_of_cases (c : option Candidate) :
  (c ≫= finishReason = Some "STOP" → Messages.stopReason_of c = "end_turn")
  ∧ (c ≫= finishReason = Some "MAX_TOKENS" → Messages.stopReason_of c = "max_tokens")
  ∧ (c ≫= finishReason ≠ Some "MAX_TOKENS" → Messages.stopReason_of c = "end_turn").
Proof.
  unfold Messages.stopReason_of.
  split; [by intros ->|]. split; [by intros ->|].
  intros H. destruct (c ≫= finishReason) as [r|]; [|done].
  destruct (decide (r = "MAX_TOKENS")) as [->|Hr]; [done|].
  destruct (decide (r = "STOP")) as [->|Hs]; [done|].
  repeat (match goal with
          | |- context [match ?x with _ => _ end] => destruct x; try done
          end).
Qed.

(** Lines that are not data, or whose data does not parse, leave no trace:
    the output is that of the remaining lines. *)
Lemma messages_on_lines_carries Date_now model started lines :
  Messages.on_lines Date_now model started lines
  = Messages.on_lines Date_now model started (List.filter carries lines).
Proof.
  revert started. induction lines as [|l lines IH]; intros started; [done|].
  destruct l; cbn [List.filter carries Messages.on_lines];
    destruct (Messages.on_line Date_now model started _) as [out started'] eqn:E;
    rewrite ?IH; try done;
    injection E as <- <-;
    by destruct (Messages.on_lines Date_now model started (List.filter carries lines)).
Qed.

Lemma upstream_on_lines_carries Date_now model reads lines :
  Upstream.on_lines Date_now model reads lines
  = Upstream.on_lines Date_now model reads (List.filter carries lines).
Proof.
  revert reads. induction lines as [|l lines IH]; intros reads; [done|].
  destruct l; cbn [List.filter carries Upstream.on_lines];
    destruct (Upstream.on_line Date_now model reads _) as [out reads'] eqn:E;
    rewrite ?IH; try done;
    injection E as <- <-;
    by destruct (Upstream.on_lines Date_now model reads (List.filter carries lines)).
Qed.

(** C6, at a stream whose finish chunk says MAX_TOKENS: the message-level
    delta of the messages stream carries 'end_turn' and the last chunk of the
    chat-completion stream carries 'stop', whereas the two translators of
    complete responses map the same signal to 'max_tokens' and 'length'. *)
Theorem stream_finish_reason_is_constant :
  ∀ (Date_now : nat → Z) (model : string),
    Messages.start SampleStream.parse Date_now model SampleStream.truncated_reads Eof
    = ([Messages.message_start (Date_now 0%nat) model;
        Messages.content_block_start;
        Messages.content_block_stop;
        Messages.message_delta "end_turn" 2;
        Messages.message_stop], Closed)
    ∧ Upstream.start SampleStream.parse Date_now model SampleStream.truncated_reads Eof
      = ([Upstream.DataChunk (Upstream.make_chunk Date_now model 0 None (Some "stop"));
          Upstream.DoneLine], Closed)
    ∧ Messages.stop_reason
        (Messages.convertGeminiToClaude (Date_now 0%nat)
           (SampleStream.finish_chunk "MAX_TOKENS") model) = "max_tokens"
    ∧ Upstream.finish_reason <$>
        Upstream.choices (Upstream.convertResponse (Date_now 0%nat) (Date_now 1%nat)
                            (SampleStream.finish_chunk "MAX_TOKENS") model)
      = ["length"].
Proof. intros. repeat split. Qed.

(** Whatever the chunk, the only stop reason a messages stream ever carries
    is 'end_turn', and the only finish reason of a chat-completion stream is
    'stop'. *)
Lemma messages_stream_stop_reason Date_now model started line r n :
  Messages.message_delta r n ∈ fst (Messages.on_line Date_now model started line) →
  r = "end_turn".
Proof.
  destruct line as [| | |g]; simpl; try by intros ?%elem_of_nil.
  rewrite !elem_of_app. intros [H|[H|H]].
  - destruct started; [by apply elem_of_nil in H|].
    repeat (apply elem_of_cons in H as [H|H]; [done|]). by apply elem_of_nil in H.
  - destruct (truthy _); [|by apply elem_of_nil in H].
    repeat (apply elem_of_cons in H as [H|H]; [done|]). by apply elem_of_nil in H.
  - destruct (has_finish g); [|by apply elem_of_nil in H].
    apply elem_of_cons in H as [H|H]; [done|].
    apply elem_of_cons in H as [H|H]; [by injection H|].
    apply elem_of_cons in H as [H|H]; [done|]. by apply elem_of_nil in H.
Qed.

(** C7. For an upstream whose chunks are { text "Hello", text " world", a
    finish chunk }, the messages stream is message_start,
    content_block_start, delta "Hello", delta " world", content_block_stop,
    message_delta, message_stop, and the chat-completion stream is a chunk
    whose delta has the content "Hello" and whose finish_reason is null, a
    like chunk with " world", a chunk with the empty delta and finish_reason
    'stop', and the [DONE] line; both streams are then closed. Every chunk
    of the chat-completion stream has one choice, of index 0, the object
    'chat.completion.chunk', the model of the request, and an id and a
    creation time taken from two readings of the clock of its own.
    A finish chunk is a chunk that carries a finish reason and no text. *)
Theorem stream_hello_world
    (JSON_parse : string → option Response) (Date_now : nat → Z) (model : string)
    (reads : list string) (fin : Response) :
  first_part_text fin = "" → has_finish fin = true →
  chunks_of JSON_parse reads
  = [Data (text_chunk "Hello"); Data (text_chunk " world");
     Data fin] →
  Messages.start JSON_parse Date_now model reads Eof
  = ([Messages.message_start (Date_now 0%nat) model;
      Messages.content_block_start;
      Messages.content_block_delta "Hello";
      Messages.content_block_delta " world";
      Messages.content_block_stop;
      Messages.message_delta "end_turn" (usage_count fin candidatesTokenCount);
      Messages.message_stop], Closed)
  ∧ Upstream.start JSON_parse Date_now model reads Eof
    = ([Upstream.DataChunk
          {| Upstream.chunk_id_stamp := Date_now 0%nat;
             Upstream.chunk_object := "chat.completion.chunk";
             Upstream.chunk_created := Date_now 1%nat / 1000;
             Upstream.chunk_model := model;
             Upstream.chunk_choices :=
               [ {| Upstream.chunk_index := 0;
                    Upstream.delta_content := Some "Hello";
                    Upstream.chunk_finish_reason := None |} ] |};
        Upstream.DataChunk
          {| Upstream.chunk_id_stamp := Date_now 2%nat;
             Upstream.chunk_object := "chat.completion.chunk";
             Upstream.chunk_created := Date_now 3%nat / 1000;
             Upstream.chunk_model := model;
             Upstream.chunk_choices :=
               [ {| Upstream.chunk_index := 0;
                    Upstream.delta_content := Some " world";
                    Upstream.chunk_finish_reason := None |} ] |};
        Upstream.DataChunk
          {| Upstream.chunk_id_stamp := Date_now 4%nat;
             Upstream.chunk_object := "chat.completion.chunk";
             Upstream.chunk_created := Date_now 5%nat / 1000;
             Upstream.chunk_model := model;
             Upstream.chunk_choices :=
               [ {| Upstream.chunk_index := 0;
                    Upstream.delta_content := None;
                    Upstream.chunk_finish_reason := Some "stop" |} ] |};
        Upstream.DoneLine], Closed).
Proof.
  intros Ht Hf Hc. unfold chunks_of in Hc.
  unfold Messages.start, Upstream.start.
  rewrite messages_on_lines_carries, upstream_on_lines_carries, Hc. simpl.
  unfold Messages.on_line, Upstream.on_line. rewrite Ht, Hf. simpl.
  done.
Qed.

(** The sample upstream, whose three events reach the re-encoders in reads
    that cut across the lines, through both re-encoders. *)
Lemma stream_hello_world_witness :
  Messages.start SampleStream.parse Sample.clock "claude-3-opus-20240229"
    SampleStream.hello_world_reads Eof
  = ([Messages.message_start 1700000000000 "claude-3-opus-20240229";
      Messages.content_block_start;
      Messages.content_block_delta "Hello";
      Messages.content_block_delta " world";
      Messages.content_block_stop;
      Messages.message_delta "end_turn" 2;
      Messages.message_stop], Closed)
  ∧ Upstream.start SampleStream.parse Sample.clock "gpt-4"
      SampleStream.hello_world_reads Eof
    = ([Upstream.DataChunk
          {| Upstream.chunk_id_stamp := 1700000000000;
             Upstream.chunk_object := "chat.completion.chunk";
             Upstream.chunk_created := 1700000000;
             Upstream.chunk_model := "gpt-4";
             Upstream.chunk_choices :=
               [ {| Upstream.chunk_index := 0;
                    Upstream.delta_content := Some "Hello";
                    Upstream.chunk_finish_reason := None |} ] |};
        Upstream.DataChunk
          {| Upstream.chunk_id_stamp := 1700000000002;
             Upstream.chunk_object := "chat.completion.chunk";
             Upstream.chunk_created := 1700000000;
             Upstream.chunk_model := "gpt-4";
             Upstream.chunk_choices :=
               [ {| Upstream.chunk_index := 0;
                    Upstream.delta_content := Some " world";
                    Upstream.chunk_finish_reason := None |} ] |};
        Upstream.DataChunk
          {| Upstream.chunk_id_stamp := 1700000000004;
             Upstream.chunk_object := "chat.completion.chunk";
             Upstream.chunk_created := 1700000000;
             Upstream.chunk_model := "gpt-4";
             Upstream.chunk_choices :=
               [ {| Upstream.chunk_index := 0;
                    Upstream.delta_content := None;
                    Upstream.chunk_finish_reason := Some "stop" |} ] |};
        Upstream.DoneLine], Closed).
Proof.
  split.
  - apply (stream_hello_world SampleStream.parse Sample.clock "claude-3-opus-20240229"
             SampleStream.hello_world_reads (SampleStream.finish_chunk "STOP"));
      reflexivity.
  - apply (stream_hello_world SampleStream.parse Sample.clock "gpt-4"
             SampleStream.hello_world_reads (SampleStream.finish_chunk "STOP"));
      reflexivity.
Defined.

(** The lines of the sample upstream, as the loop body meets them. *)
Example hello_world_lines :
  lines_of "" SampleStream.hello_world_reads
  = ["data: {hello}"; ""; "data: {world}"; ""; "data: {stop}"; ""].
Proof. reflexivity. Qed.

(** What the two translators make of a response without candidates: the
    chat-completion translator takes the branch of lines 80-89, no choice
    and the three counters at zero; the messages translator has no such
    branch, and reports the counters of the upstream usage metadata. *)
Lemma no_candidate_translations (t_id t_created : Z) (g : Response) (model : string) :
  first_candidate g = None →
  Upstream.choices (Upstream.convertResponse t_id t_created g model) = []
  ∧ Upstream.usage (Upstream.convertResponse t_id t_created g model)
    = {| Upstream.prompt_tokens := 0; Upstream.completion_tokens := 0;
         Upstream.total_tokens := 0 |}
  ∧ Messages.content (Messages.convertGeminiToClaude t_id g model)
    = [ {| Messages.block_type := "text"; Messages.block_text := "" |} ]
  ∧ Messages.stop_reason (Messages.convertGeminiToClaude t_id g model) = "end_turn"
  ∧ Messages.usage (Messages.convertGeminiToClaude t_id g model)
    = {| Messages.input_tokens := or0 (usageMetadata g ≫= promptTokenCount);
         Messages.output_tokens := or0 (usageMetadata g ≫= candidatesTokenCount) |}.
Proof.
  intros H. unfold Upstream.convertResponse, Messages.convertGeminiToClaude.
  rewrite H. simpl. repeat split.
Qed.

(** C8, at the response without candidates with which the upstream answers
    a prompt it blocks, counting the eight tokens of the prompt: the
    messages translator returns a message whose usage reports 8 input
    tokens, not zero, while the chat-completion translator returns for the
    same response no choice and the three usage counters at zero. Neither
    throws, and the content of the message is one block with the empty
    text. *)
Theorem convertGeminiToClaude_counts_blocked_prompt :
  ∀ (t_id t_created : Z) (model : string),
    first_candidate SampleStream.blocked = None
    ∧ Messages.convertGeminiToClaude t_id SampleStream.blocked model
      = {| Messages.id_stamp := t_id; Messages.type := "message";
           Messages.role := "assistant";
           Messages.content :=
             [ {| Messages.block_type := "text"; Messages.block_text := "" |} ];
           Messages.model := model; Messages.stop_reason := "end_turn";
           Messages.usage :=
             {| Messages.input_tokens := 8; Messages.output_tokens := 0 |} |}
    ∧ Upstream.convertResponse t_id t_created SampleStream.blocked model
      = {| Upstream.id_stamp := t_id; Upstream.object := "chat.completion";
           Upstream.created := t_created / 1000; Upstream.model := model;
           Upstream.choices := [];
           Upstream.usage :=
             {| Upstream.prompt_tokens := 0; Upstream.completion_tokens := 0;
                Upstream.total_tokens := 0 |} |}.
Proof. intros. repeat split. Qed.


(** A chunk with the parts "Hel" and "lo": the streams carry "Hel", the
    complete responses "Hello". *)
Example two_parts_streamed_and_complete :
  fst (Messages.on_line Sample.clock "m" true (Data SampleStream.two_parts))
  = [Messages.content_block_delta "Hel"]
  ∧ Upstream.delta_content <$>
      (match fst (Upstream.on_line Sample.clock "m" 0 (Data SampleStream.two_parts)) with
       | [Upstream.DataChunk c] => Upstream.chunk_choices c
       | _ => []
       end) = [Some "Hel"]
  ∧ Messages.block_text <$>
      Messages.content (Messages.convertGeminiToClaude 0 SampleStream.two_parts "m")
    = ["Hello"]
  ∧ Upstream.message_content <$>
      Upstream.choices (Upstream.convertResponse 0 0 SampleStream.two_parts "m")
    = ["Hello"].
Proof. repeat split. Qed.

End Translation.

(** ** Validation of the request body *)

Section Validation.

(** The chat-completion handler answers a body without a model, or without
    a non-empty array of messages, with status 400 and an
    invalid_request_error, whether or not a credential is at hand. *)
Lemma chat_POST_validates auth body tokenResult :
  Auth.valid auth = true →
  truthy_opt (Upstream.req_model body) = false
  ∨ Upstream.req_messages body = None ∨ Upstream.req_messages body = Some [] →
  ∃ m, ChatCompletions.POST auth (Some body) tokenResult
       = ChatCompletions.Reply 400
           {| ChatCompletions.error_message := m;
              ChatCompletions.error_type := "invalid_request_error" |}.
Proof.
  intros Hv H. unfold ChatCompletions.POST. rewrite Hv. simpl.
  destruct (truthy_opt (Upstream.req_model body)); simpl; [|by eexists].
  destruct H as [H|[->| ->]]; [done|by eexists..].
Qed.

(** The messages handler looks at no field of the body: with a valid key
    and a credential at hand, a body without [messages] always ends in the
    exception of the translator, and any other body is translated and sent. *)
Lemma messages_POST_unvalidated mapModel auth body account token :
  Auth.valid auth = true →
  Messages.POST mapModel auth (Some body) (Some (account, token))
  = match Messages.convertClaudeToGemini body with
    | None => Messages.Crash
    | Some geminiRequest =>
        Messages.CallUpstream (mapModel (Messages.req_model body)) geminiRequest token
          (flag_set (Messages.req_stream body))
    end
  ∧ (Messages.req_messages body = None → Messages.convertClaudeToGemini body = None).
Proof.
  intros Hv. unfold Messages.POST. rewrite Hv. simpl. split; [done|].
  unfold Messages.convertClaudeToGemini. by intros ->.
Qed.

(** C9, at a messages request without [messages], sent with a valid key
    while a credential is available: the handler hands the body to the
    request translator, which throws; the exception leaves the handler, and
    no 4xx reply is made. A body without [model] is translated and sent
    upstream. The chat-completion handler answers the like bodies with
    status 400. *)
Theorem messages_POST_does_not_validate :
  ∀ mapModel : option string → option string,
    Messages.POST mapModel SampleStream.key_ok (Some SampleStream.claude_no_messages)
      SampleStream.credential
    = Messages.Crash
    ∧ Messages.POST mapModel SampleStream.key_ok (Some SampleStream.claude_no_model)
        SampleStream.credential
      = Messages.CallUpstream (mapModel None)
          {| Messages.contents :=
               [ {| Messages.g_role := "user";
                    Messages.g_parts := [Messages.TextPart "Hi"] |} ];
             Messages.generationConfig :=
               {| Messages.maxOutputTokens := Some 16; Messages.temperature := None;
                  Messages.topP := None; Messages.stopSequences := None |};
             Messages.systemInstruction := None |}
          "ya29.a" false
    ∧ ChatCompletions.POST SampleStream.key_ok (Some SampleStream.openai_no_messages)
        SampleStream.credential
      = ChatCompletions.Reply 400
          {| ChatCompletions.error_message := "Missing required field: messages";
             ChatCompletions.error_type := "invalid_request_error" |}
    ∧ ChatCompletions.POST SampleStream.key_ok (Some SampleStream.openai_no_model)
        SampleStream.credential
      = ChatCompletions.Reply 400
          {| ChatCompletions.error_message := "Missing required field: model";
             ChatCompletions.error_type := "invalid_request_error" |}.
Proof. intros. repeat split. Qed.

End Validation.

(** * Further properties of the token manager *)

Section Pool.
Import TokenManager.

Lemma loadAccounts_well_kept w st :
  list_of_objects w → well_kept st → well_kept (snd (loadAccounts w st)).
Proof.
  unfold list_of_objects, well_kept, loadAccounts.
  destruct (ACCOUNTS_JSON w) as [| |parsed]; [constructor|done|].
  intros [l ->] _. rewrite filter_enabled_objects. simpl.
  apply Forall_fmap, Forall_forall. intros a Ha. exists a. split; [done|].
  rewrite sort_perm in Ha. by apply list_elem_of_filter in Ha as [Ha _].
Qed.

Lemma getToken_reload_well_kept w st :
  list_of_objects w → well_kept st → well_kept (getToken_reload w st).
Proof.
  intros Hw Hst. unfold getToken_reload.
  assert (well_kept (if (length (accounts st) =? 0)%nat then st else snd (now_ms w st)))
    as H0 by (by destruct (length (accounts st) =? 0)%nat).
  destruct (reload_due w st); [|done].
  pose proof (loadAccounts_well_kept w _ Hw H0) as H1.
  by destruct (loadAccounts w _).
Qed.

(** A refresh changes nothing of an account but its token. *)
Lemma refreshToken_keeps_identity w st a :
  id (refreshToken w st a).1.2 = id a
  ∧ email (refreshToken w st a).1.2 = email a
  ∧ enabled (refreshToken w st a).1.2 = enabled a
  ∧ subscription_tier (refreshToken w st a).1.2 = subscription_tier a.
Proof.
  unfold refreshToken, call_endpoint.
  destruct (negb (truthy_opt (GOOGLE_CLIENT_ID w))
            || negb (truthy_opt (GOOGLE_CLIENT_SECRET w))); [done|].
  by destruct (fetch_token w (fetches st) (refresh_token (token a))) as [| |[d|]].
Qed.

Lemma getToken_check_returns w st slot e a t :
  accounts st !! slot = Some e →
  fst (getToken_check w st slot (Some e)) = Return (Some (a, t)) →
  t = access_token (token a)
  ∧ accounts (snd (getToken_check w st slot (Some e))) !! slot = Some (Obj a)
  ∧ ∃ a0, e = Obj a0 ∧ enabled a = enabled a0 ∧ id a = id a0.
Proof.
  intros Hslot. unfold getToken_check, now_ms.
  destruct e as [a0|]; [|done].
  destruct (Date_now w (clock_reads st) / 1000 >=? expiry_timestamp (token a0) - 300).
  - match goal with |- context [refreshToken w ?s a0] =>
      pose proof (refreshToken_keeps_identity w s a0) as (Hi & _ & He & _);
      pose proof (refreshToken_returns_current w s a0) as Ht;
      pose proof (refreshToken_frame w s a0) as [Hacc _];
      destruct (refreshToken w s a0) as [[r a'] s'] end.
    simpl in *. destruct r as [r|]; simpl; [|done].
    destruct (truthy r); simpl; [|done]. intros [= <- <-].
    split; [by rewrite (Ht r)|]. split; [|by exists a0].
    apply list_lookup_insert_eq. rewrite Hacc. by eapply lookup_lt_Some.
  - simpl. intros [= <- <-]. split; [done|]. split; [done|]. by exists a0.
Qed.

Lemma getToken_check_well_kept w st slot e :
  well_kept st → accounts st !! slot = Some e →
  well_kept (snd (getToken_check w st slot (Some e))).
Proof.
  unfold well_kept. intros Hst Hslot. unfold getToken_check, now_ms.
  destruct e as [a0|]; [|done].
  destruct (Date_now w (clock_reads st) / 1000 >=? expiry_timestamp (token a0) - 300);
    [|done].
  match goal with |- context [refreshToken w ?s a0] =>
    pose proof (refreshToken_keeps_identity w s a0) as (_ & _ & He & _);
    pose proof (refreshToken_frame w s a0) as [Hacc _];
    destruct (refreshToken w s a0) as [[r a'] s'] end.
  simpl in *.
  assert (Forall (λ e, ∃ a, e = Obj a ∧ enabled a = true)
            (<[slot:=Obj a']> (accounts s'))) as H.
  { rewrite Hacc. apply Forall_insert; [done|]. exists a'. split; [done|].
    rewrite He. rewrite Forall_forall in Hst.
    destruct (Hst (Obj a0)) as (a1 & [= <-] & H1); [|done].
    by eapply list_elem_of_lookup_2. }
  by destruct (truthy_opt r).
Qed.

(** One invocation: what it returns, and what it keeps. *)
Lemma getToken_once_returns w st a t :
  fst (getToken_once w st) = Return (Some (a, t)) →
  t = access_token (token a) ∧ Obj a ∈ accounts (snd (getToken_once w st)).
Proof.
  unfold getToken_once, getToken_select.
  set (st1 := getToken_reload w st).
  destruct (length (accounts st1) =? 0)%nat; [done|].
  set (slot := (currentIndex st1 mod length (accounts st1))%nat).
  destruct (accounts st1 !! slot) as [e|] eqn:He; [|done].
  intros H.
  destruct (getToken_check_returns w (incr_currentIndex st1) slot e a t He H)
    as (Ht & Hp & _).
  split; [done|]. by eapply list_elem_of_lookup_2.
Qed.

Lemma getToken_once_well_kept w st :
  list_of_objects w → well_kept st →
  well_kept (snd (getToken_once w st))
  ∧ ∀ a t, fst (getToken_once w st) = Return (Some (a, t)) → enabled a = true.
Proof.
  intros Hw Hst. pose proof (getToken_reload_well_kept w st Hw Hst) as H1.
  unfold getToken_once, getToken_select.
  set (st1 := getToken_reload w st) in *.
  destruct (length (accounts st1) =? 0)%nat; [done|].
  set (slot := (currentIndex st1 mod length (accounts st1))%nat).
  destruct (accounts st1 !! slot) as [e|] eqn:He; [|done].
  split; [by apply (getToken_check_well_kept w (incr_currentIndex st1))|].
  intros a t H.
  destruct (getToken_check_returns w (incr_currentIndex st1) slot e a t He H)
    as (_ & _ & a0 & -> & -> & _).
  unfold well_kept in H1. rewrite Forall_forall in H1.
  destruct (H1 (Obj a0)) as (a1 & [= <-] & H2); [|done].
  by eapply list_elem_of_lookup_2.
Qed.

(** The account a call returns has neither [disabled] nor [proxy_disabled]
    set, provided the list of the environment holds account objects only
    and the pool was loaded from it: the pool keeps holding enabled accounts
    through reloads and refreshes. *)
Theorem getToken_returns_enabled (w : World) (fuel : nat) (st : State) :
  list_of_objects w → well_kept st →
  well_kept (snd (getToken fuel w st))
  ∧ ∀ a t, fst (getToken fuel w st) = Resolved (Some (a, t)) →
      disabled a ≠ Some true ∧ proxy_disabled a ≠ Some true.
Proof.
  intros Hw. revert st. induction fuel as [|fuel IH]; intros st Hst; [done|].
  simpl. destruct (getToken_once_well_kept w st Hw Hst) as [H1 H2].
  destruct (getToken_once w st) as [[r| |] st']; simpl in *.
  - split; [done|]. intros a t [= ->]. apply enabled_flags. by eapply H2.
  - done.
  - by apply IH.
Qed.

Lemma getToken_returns_enabled_witness :
  disabled (Sample.acct "u1" (Some "ULTRA") None (Some false) 1700003600) ≠ Some true
  ∧ proxy_disabled (Sample.acct "u1" (Some "ULTRA") None (Some false) 1700003600)
    ≠ Some true.
Proof.
  destruct (getToken_returns_enabled
              (Sample.world_of (EnvArray (Obj <$> Sample.mixed)) Sample.granted) 3 initial)
    as [_ H].
  - exists Sample.mixed. reflexivity.
  - constructor.
  - apply (H _ "ya29.u1"). reflexivity.
Defined.

(** Whenever a call returns an account and a token, the token is the access
    token that the account carries, and the account is the one the pool
    holds from then on: a refresh is seen by later calls. *)
Theorem getToken_returns_pool_account (w : World) (fuel : nat) (st : State)
    (a : Account) (t : string) :
  fst (getToken fuel w st) = Resolved (Some (a, t)) →
  t = access_token (token a) ∧ Obj a ∈ accounts (snd (getToken fuel w st)).
Proof.
  revert st. induction fuel as [|fuel IH]; intros st; [done|]. simpl.
  pose proof (getToken_once_returns w st a t) as H1.
  destruct (getToken_once w st) as [[r| |] st']; simpl in *.
  - intros [= ->]. by apply H1.
  - done.
  - apply IH.
Qed.

Lemma getToken_returns_pool_account_witness :
  "ya29.new" = access_token (token (with_token Sample.stale
                  {| access_token := "ya29.new"; refresh_token := "1//ya29.s1";
                     expires_in := 3599; expiry_timestamp := 1700003599;
                     project_id := None |})).
Proof.
  apply (getToken_returns_pool_account
           (Sample.world_of (EnvArray [Obj Sample.stale]) Sample.granted) 1 initial).
  reflexivity.
Defined.

(** The console and the endpoint counter through a reload. *)
Lemma getToken_reload_fetches w st :
  fetches (getToken_reload w st) = fetches st.
Proof.
  unfold getToken_reload.
  destruct (reload_due w st); [|by destruct (length (accounts st) =? 0)%nat].
  match goal with |- context [loadAccounts w ?s] =>
    assert (fetches (snd (loadAccounts w s)) = fetches s) as H
      by (unfold loadAccounts; destruct (ACCOUNTS_JSON w) as [| |l]; [done..|];
          by destruct (filter_enabled l));
    destruct (loadAccounts w s) as [r s'] end.
  simpl in *. rewrite H. by destruct (length (accounts st) =? 0)%nat.
Qed.

Lemma refreshToken_counts w st a :
  refresh_attempts (refreshToken w st a).2 = refresh_attempts st
  ∧ (fetches (refreshToken w st a).2 ≤ S (fetches st))%nat
  ∧ (fetches st ≤ fetches (refreshToken w st a).2)%nat.
Proof.
  unfold refreshToken, call_endpoint.
  destruct (negb (truthy_opt (GOOGLE_CLIENT_ID w))
            || negb (truthy_opt (GOOGLE_CLIENT_SECRET w)));
    [unfold refresh_attempts; simpl; lia|].
  destruct (fetch_token w (fetches st) (refresh_token (token a))) as [| |[d|]];
    simpl; unfold refresh_attempts; simpl; lia.
Qed.

Lemma getToken_check_counts w st slot account :
  let st' := snd (getToken_check w st slot account) in
  (refresh_attempts st ≤ refresh_attempts st' ≤ S (refresh_attempts st))%nat
  ∧ (fetches st' + refresh_attempts st ≤ fetches st + refresh_attempts st')%nat
  ∧ (fetches st ≤ fetches st')%nat
  ∧ (fst (getToken_check w st slot account) = Recurse →
     refresh_attempts st' = S (refresh_attempts st)).
Proof.
  unfold getToken_check, now_ms.
  destruct account as [[a|]|]; try (simpl; unfold refresh_attempts; simpl;
                                      repeat split; (lia || done)).
  destruct (Date_now w (clock_reads st) / 1000 >=? expiry_timestamp (token a) - 300);
    [|simpl; unfold refresh_attempts; simpl; repeat split; (lia || done)].
  name_refresh (refreshToken_counts w) r a' s'. intros (H1 & H2 & H3).
  unfold refresh_attempts in *. simpl in *.
  destruct (truthy_opt r); simpl; repeat split; (lia || done).
Qed.

(** Each invocation makes at most one refresh attempt; it calls the token
    endpoint at most once, and only as part of a refresh attempt; and an
    invocation that falls back to the next account (line 87) has made
    exactly one attempt. *)
Theorem getToken_once_single_attempt (w : World) (st : State) :
  let st' := snd (getToken_once w st) in
  (refresh_attempts st ≤ refresh_attempts st' ≤ S (refresh_attempts st))%nat
  ∧ (fetches st ≤ fetches st')%nat
  ∧ (fetches st' - fetches st ≤ refresh_attempts st' - refresh_attempts st)%nat
  ∧ (fst (getToken_once w st) = Recurse →
     refresh_attempts st' = S (refresh_attempts st)).
Proof.
  unfold getToken_once, getToken_select.
  destruct (getToken_reload_frame w st) as [_ Hr].
  pose proof (getToken_reload_fetches w st) as Hf.
  set (st1 := getToken_reload w st) in *.
  destruct (length (accounts st1) =? 0)%nat.
  { simpl. unfold refresh_attempts in *. simpl. rewrite Hr, Hf.
    repeat split; (lia || done). }
  match goal with |- context [getToken_check w ?s ?i ?acc] =>
    pose proof (getToken_check_counts w s i acc) as (H1 & H2 & H3 & H4) end.
  unfold refresh_attempts in *. simpl in *. rewrite Hr in *. rewrite Hf in *.
  repeat split; try lia. exact H4.
Qed.

(** With an account list of objects some of which are enabled, no
    invocation ends at line 71, whatever the pool it starts from. *)
Lemma getToken_once_some_account w l st :
  ACCOUNTS_JSON w = EnvArray (Obj <$> l) →
  filter (λ a, enabled a = true) l ≠ [] →
  fst (getToken_once w st) ≠ Return None.
Proof.
  intros Hblob Hne. unfold getToken_once, getToken_select.
  assert (accounts (getToken_reload w st) ≠ []) as H.
  { destruct (reload_due w st) eqn:E.
    - apply getToken_reload_due in E as [st0 ->].
      rewrite (loadAccounts_objects w st0 l Hblob).
      intros H. apply fmap_nil_inv in H. apply Hne.
      apply Permutation_nil_r. rewrite <- H. symmetry. apply sort_perm.
    - by apply getToken_reload_not_due in E as (-> & _ & _ & ?). }
  set (st1 := getToken_reload w st) in *.
  destruct (accounts st1) as [|e0 rest] eqn:Eacc; [done|].
  change (length (e0 :: rest) =? 0)%nat with false. cbv iota.
  rewrite <- Eacc. unfold getToken_check, now_ms.
  destruct (accounts st1 !! _) as [[a|]|]; [|done..].
  destruct (_ / 1000 >=? _); [|done].
  destruct (refreshToken _ _ _) as [[r a'] s'].
  by destruct (truthy_opt r).
Qed.

Lemma getToken_empty_list w l fuel st :
  ACCOUNTS_JSON w = EnvArray (Obj <$> l) →
  filter (λ a, enabled a = true) l = [] → accounts st = [] →
  fst (getToken (S fuel) w st) = Resolved None
  ∧ accounts (snd (getToken (S fuel) w st)) = []
  ∧ head (console (snd (getToken (S fuel) w st))) = Some Err_no_accounts.
Proof.
  intros Hblob Hnil Hst. simpl. unfold getToken_once.
  assert (accounts (getToken_reload w st) = []) as H.
  { assert (reload_due w st = true) as E by (unfold reload_due; by rewrite Hst).
    apply getToken_reload_due in E as [st0 ->].
    by rewrite (loadAccounts_objects w st0 l Hblob), Hnil. }
  rewrite H. simpl. by rewrite H.
Qed.

(** getToken answers "no credential" exactly when the list has no enabled
    account: with an enabled account in the list no call ever returns null,
    from whatever state; with none, a call on an empty pool returns null at
    once, leaves the pool empty and says so on the console. *)
Theorem getToken_null_iff_no_enabled (w : World) (l : list Account) :
  ACCOUNTS_JSON w = EnvArray (Obj <$> l) →
  (filter (λ a, enabled a = true) l ≠ [] →
   ∀ fuel st, fst (getToken fuel w st) ≠ Resolved None)
  ∧ (filter (λ a, enabled a = true) l = [] →
     ∀ fuel st, accounts st = [] →
       fst (getToken (S fuel) w st) = Resolved None
       ∧ accounts (snd (getToken (S fuel) w st)) = []
       ∧ head (console (snd (getToken (S fuel) w st))) = Some Err_no_accounts).
Proof.
  intros Hblob. split.
  - intros Hne fuel. induction fuel as [|fuel IH]; intros st; [done|]. simpl.
    pose proof (getToken_once_some_account w l st Hblob Hne) as H.
    destruct (getToken_once w st) as [[[r|]| |] st']; simpl in *;
      first [done|apply IH].
  - intros Hnil fuel st Hst. by apply (getToken_empty_list w l).
Qed.

Lemma getToken_null_iff_no_enabled_witness :
  fst (getToken 1 (Sample.world_of (EnvArray (Obj <$> Sample.mixed)) Sample.granted)
         initial) ≠ Resolved None.
Proof.
  destruct (getToken_null_iff_no_enabled
              (Sample.world_of (EnvArray (Obj <$> Sample.mixed)) Sample.granted)
              Sample.mixed) as [H _]; [reflexivity|].
  apply H. discriminate.
Defined.

(** When a reload is due, the pool it leaves is that of the environment
    list alone, sorted: every token that was refreshed in memory is replaced
    by the one of the list. *)
Theorem getToken_reload_forgets (w : World) (l : list Account) (st : State) :
  ACCOUNTS_JSON w = EnvArray (Obj <$> l) →
  reload_due w st = true →
  accounts (getToken_reload w st)
  = Obj <$> sort compare_tier (filter (λ a, enabled a = true) l)
  ∧ lastRefreshTime (getToken_reload w st)
    = Date_now w (if (length (accounts st) =? 0)%nat then clock_reads st
                  else S (clock_reads st))
  ∧ currentIndex (getToken_reload w st) = currentIndex st.
Proof.
  intros Hblob E. split; [|split].
  - apply getToken_reload_due in E as [st0 ->]. by apply loadAccounts_objects.
  - unfold getToken_reload. rewrite E.
    match goal with |- context [loadAccounts w ?s] =>
      assert (clock_reads (snd (loadAccounts w s)) = clock_reads s) as H
        by (unfold loadAccounts; rewrite Hblob, filter_enabled_objects; done);
      destruct (loadAccounts w s) as [r s'] end.
    simpl in *. rewrite H. by destruct (length (accounts st) =? 0)%nat.
  - apply getToken_reload_frame.
Qed.

Lemma getToken_reload_forgets_witness :
  accounts (getToken_reload (Sample.world_of (EnvArray [Obj Sample.stale]) Sample.granted)
              {| accounts := [Obj (with_token Sample.stale (Sample.tok "ya29.new" 1700003599))];
                 currentIndex := 1; lastRefreshTime := 1600000000000;
                 clock_reads := 4; fetches := 1; console := [] |})
  = [Obj Sample.stale].
Proof.
  apply (getToken_reload_forgets
           (Sample.world_of (EnvArray [Obj Sample.stale]) Sample.granted) [Sample.stale]);
    reflexivity.
Defined.

(** The count of the health endpoint: on an empty pool it loads the list
    and counts its enabled accounts; on a pool that is not empty it counts
    the pool and touches nothing. *)
Theorem getAccountCount_counts (w : World) (l : list Account) (st : State) :
  ACCOUNTS_JSON w = EnvArray (Obj <$> l) →
  (accounts st = [] →
   fst (getAccountCount w st) = length (filter (λ a, enabled a = true) l))
  ∧ (accounts st ≠ [] →
     getAccountCount w st = (length (accounts st), st)).
Proof.
  intros Hblob. unfold getAccountCount. split.
  - intros E. rewrite E. simpl. rewrite (loadAccounts_objects w _ l Hblob).
    rewrite length_fmap. apply Permutation_length, sort_perm.
  - intros H. destruct (accounts st) as [|e rest] eqn:E; [done|].
    simpl. by rewrite E.
Qed.

Lemma getAccountCount_counts_witness :
  fst (getAccountCount (Sample.world_of (EnvArray (Obj <$> Sample.mixed)) Sample.revoked)
         initial) = 6%nat.
Proof.
  destruct (getAccountCount_counts
              (Sample.world_of (EnvArray (Obj <$> Sample.mixed)) Sample.revoked)
              Sample.mixed initial) as [H _]; [reflexivity|].
  apply H. reflexivity.
Defined.

Lemma mask_all_objects l :
  mask_all (Obj <$> l) = Some (mask <$> l).
Proof.
  induction l as [|a l IH]; [done|]. rewrite !fmap_cons. simpl. by rewrite IH.
Qed.

(** What the status display gets of a pool of account objects: as many
    accounts, in the order of the pool, each with both tokens replaced by
    '***' and every other field as in the pool; the pool itself keeps its
    tokens. *)
Theorem getAccounts_masks (w : World) (st : State) (pool : list Account) :
  pool ≠ [] → accounts st = Obj <$> pool →
  ∃ shown, getAccounts w st = (Some shown, st)
    ∧ length shown = length pool
    ∧ ∀ i a, pool !! i = Some a →
        ∃ b, shown !! i = Some b
          ∧ access_token (token b) = "***" ∧ refresh_token (token b) = "***"
          ∧ id b = id a ∧ email b = email a
          ∧ expires_in (token b) = expires_in (token a)
          ∧ expiry_timestamp (token b) = expiry_timestamp (token a)
          ∧ project_id (token b) = project_id (token a)
          ∧ disabled b = disabled a ∧ proxy_disabled b = proxy_disabled a
          ∧ subscription_tier b = subscription_tier a.
Proof.
  intros Hne Hst. exists (mask <$> pool). unfold getAccounts.
  assert ((length (accounts st) =? 0)%nat = false) as ->.
  { rewrite Hst. by destruct pool. }
  rewrite Hst, mask_all_objects, length_fmap.
  split; [done|]. split; [done|].
  intros i a Hi. exists (mask a). rewrite list_lookup_fmap, Hi. done.
Qed.

Lemma getAccounts_masks_witness :
  ∃ shown, getAccounts Sample.world_three Sample.loaded_three
           = (Some shown, Sample.loaded_three)
    ∧ length shown = 3%nat.
Proof.
  destruct (getAccounts_masks Sample.world_three Sample.loaded_three
              [Sample.acct "a" (Some "ULTRA") None None 1700003600;
               Sample.acct "b" (Some "PRO") None None 1700003600;
               Sample.acct "c" (Some "FREE") None None 1700003600])
    as (shown & H1 & H2 & _); [discriminate|reflexivity|].
  exists shown. split; [exact H1|exact H2].
Defined.

End Pool.

(** * Further properties of the streaming re-encoders *)

Section Reading.
Import Gemini.

Lemma split_lines_nonempty s : split_lines s ≠ [].
Proof.
  destruct s as [|c s]; simpl; [done|].
  destruct (Ascii.eqb c newline); [done|]. by destruct (split_lines s).
Qed.

Lemma append_cons c (s t : string) : (String c s ++ t)%string = String c (s ++ t)%string.
Proof. reflexivity. Qed.

Lemma append_empty_r (s : string) : (s ++ "")%string = s.
Proof. induction s as [|c s IH]; [done|]. by rewrite append_cons, IH. Qed.

Lemma append_assoc (a b c : string) : ((a ++ b) ++ c)%string = (a ++ (b ++ c))%string.
Proof. induction a as [|x a IH]; [done|]. by rewrite !append_cons, IH. Qed.

(** Splitting a text in two does not change its lines: the last piece of
    the first half is continued by the second. *)
Lemma split_lines_app (a b : string) :
  split_lines (a ++ b)
  = removelast (split_lines a) ++ split_lines (List.last (split_lines a) "" ++ b).
Proof.
  induction a as [|c a IH]; [done|].
  pose proof (split_lines_nonempty a) as Hne.
  rewrite append_cons. simpl. destruct (Ascii.eqb c newline) eqn:Ec.
  - rewrite IH. destruct (split_lines a) as [|l ls]; [done|]. done.
  - rewrite IH. destruct (split_lines a) as [|l [|l2 ls]]; [done| |].
    + simpl. by rewrite Ec.
    + simpl. done.
Qed.

(** What stays in the buffer holds no line break. *)
Lemma split_lines_last s :
  split_lines (List.last (split_lines s) "") = [List.last (split_lines s) ""].
Proof.
  induction s as [|c s IH]; [done|].
  pose proof (split_lines_nonempty s) as Hne. simpl.
  destruct (Ascii.eqb c newline) eqn:Ec.
  - destruct (split_lines s) as [|l ls]; [done|]. exact IH.
  - destruct (split_lines s) as [|l [|l2 ls]]; [done| |].
    + simpl in *. rewrite Ec. by rewrite IH.
    + exact IH.
Qed.

Lemma removelast_app_nonempty {A} (l1 l2 : list A) :
  l2 ≠ [] → removelast (l1 ++ l2) = l1 ++ removelast l2.
Proof. intros H. by apply removelast_app. Qed.

Lemma lines_of_buffer buffer reads :
  split_lines buffer = [buffer] →
  lines_of buffer reads = removelast (split_lines (buffer ++ whole reads)).
Proof.
  revert buffer. induction reads as [|r reads IH]; intros buffer Hb.
  - simpl. by rewrite append_empty_r, Hb.
  - simpl. unfold take_lines. simpl.
    rewrite IH by apply split_lines_last.
    rewrite <- append_assoc, (split_lines_app (buffer ++ r)).
    rewrite removelast_app_nonempty by apply split_lines_nonempty. done.
Qed.

(** The lines that the loop body meets are all the lines of the whole text
    of the upstream but the last, unterminated one; they do not depend on
    where the reads cut the text, and neither does what the two re-encoders
    emit. *)
Theorem start_any_cut (JSON_parse : string → option Response) (Date_now : nat → Z)
    (model : string) (reads : list string) (e : input_end) :
  lines_of "" reads = removelast (split_lines (whole reads))
  ∧ Messages.start JSON_parse Date_now model reads e
    = Messages.start JSON_parse Date_now model [whole reads] e
  ∧ Upstream.start JSON_parse Date_now model reads e
    = Upstream.start JSON_parse Date_now model [whole reads] e.
Proof.
  assert (∀ rs, lines_of "" rs = removelast (split_lines (whole rs))) as H.
  { intros rs. by rewrite lines_of_buffer. }
  split; [apply H|].
  unfold Messages.start, Upstream.start.
  rewrite (H reads), (H [whole reads]). simpl. by rewrite append_empty_r.
Qed.

(** A line that is not data, or whose data does not parse, is skipped:
    two upstreams with the same chunks and sentinels give the same streams. *)
Theorem start_skips_other_lines (JSON_parse : string → option Response)
    (Date_now : nat → Z) (model : string) (reads reads' : list string) (e : input_end) :
  chunks_of JSON_parse reads = chunks_of JSON_parse reads' →
  Messages.start JSON_parse Date_now model reads e
  = Messages.start JSON_parse Date_now model reads' e
  ∧ Upstream.start JSON_parse Date_now model reads e
    = Upstream.start JSON_parse Date_now model reads' e.
Proof.
  unfold chunks_of, Messages.start, Upstream.start. intros H.
  rewrite (messages_on_lines_carries _ _ _ (classify JSON_parse <$> lines_of "" reads)).
  rewrite (messages_on_lines_carries _ _ _ (classify JSON_parse <$> lines_of "" reads')).
  rewrite (upstream_on_lines_carries _ _ _ (classify JSON_parse <$> lines_of "" reads)).
  rewrite (upstream_on_lines_carries _ _ _ (classify JSON_parse <$> lines_of "" reads')).
  by rewrite H.
Qed.

Lemma start_skips_other_lines_witness :
  Messages.start SampleStream.parse Sample.clock "m"
    [ ("data: {hello}" ++ SampleStream.nl ++ "data: {oops" ++ SampleStream.nl
       ++ ": ping" ++ SampleStream.nl ++ "data: {stop}" ++ SampleStream.nl)%string ] Eof
  = Messages.start SampleStream.parse Sample.clock "m"
      [ ("data: {hello}" ++ SampleStream.nl ++ "data: {stop}" ++ SampleStream.nl)%string ]
      Eof.
Proof.
  apply (start_skips_other_lines SampleStream.parse Sample.clock "m").
  reflexivity.
Defined.

End Reading.

Section Framing.
Import Gemini.

Lemma delivered_text_app a b :
  delivered_text (a ++ b) = (delivered_text a ++ delivered_text b)%string.
Proof.
  induction a as [|ev a IH]; [done|].
  destruct ev; simpl; rewrite IH; try done. by rewrite append_assoc.
Qed.

Lemma streamed_text_app a b :
  streamed_text (a ++ b) = (streamed_text a ++ streamed_text b)%string.
Proof.
  induction a as [|o a IH]; [done|].
  destruct o; simpl; rewrite IH; try done. by rewrite append_assoc.
Qed.

Lemma truthy_false s : truthy s = false → s = "".
Proof. by destruct s. Qed.

Lemma messages_on_line_text Date_now model started line :
  delivered_text (fst (Messages.on_line Date_now model started line))
  = carried_text [line].
Proof.
  destruct line as [| | |g]; try done. simpl.
  rewrite !delivered_text_app, append_empty_r.
  destruct started, (has_finish g), (truthy (first_part_text g)) eqn:E; simpl;
    rewrite ?append_empty_r; try done; by apply truthy_false in E.
Qed.

Lemma upstream_on_line_text Date_now model reads line :
  streamed_text (fst (Upstream.on_line Date_now model reads line))
  = carried_text [line].
Proof.
  destruct line as [| | |g]; try done. simpl. rewrite append_empty_r.
  destruct (has_finish g), (truthy (first_part_text g)) eqn:E; simpl;
    unfold chunk_text; simpl; rewrite ?append_empty_r; try done;
    by apply truthy_false in E.
Qed.

Lemma carried_text_cons line lines :
  carried_text (line :: lines) = (carried_text [line] ++ carried_text lines)%string.
Proof. destruct line; simpl; try done. by rewrite append_empty_r. Qed.

Lemma messages_on_lines_text Date_now model started lines :
  delivered_text (fst (Messages.on_lines Date_now model started lines))
  = carried_text lines.
Proof.
  revert started. induction lines as [|line lines IH]; intros started; [done|].
  cbn [Messages.on_lines].
  pose proof (messages_on_line_text Date_now model started line) as H.
  destruct (Messages.on_line Date_now model started line) as [out started'].
  specialize (IH started').
  destruct (Messages.on_lines Date_now model started' lines) as [outs s'].
  cbn [fst] in *. rewrite delivered_text_app, H, IH. symmetry. apply carried_text_cons.
Qed.

Lemma upstream_on_lines_text Date_now model reads lines :
  streamed_text (fst (Upstream.on_lines Date_now model reads lines))
  = carried_text lines.
Proof.
  revert reads. induction lines as [|line lines IH]; intros reads; [done|].
  cbn [Upstream.on_lines].
  pose proof (upstream_on_line_text Date_now model reads line) as H.
  destruct (Upstream.on_line Date_now model reads line) as [out reads'].
  specialize (IH reads').
  destruct (Upstream.on_lines Date_now model reads' lines) as [outs s'].
  cbn [fst] in *. rewrite streamed_text_app, H, IH. symmetry. apply carried_text_cons.
Qed.

(** Both streams deliver, delta after delta, exactly the text that the
    chunks of the upstream carry in their first part, in the order of the
    upstream, whether the upstream ends or fails. *)
Theorem start_delivers_carried_text (JSON_parse : string → option Response)
    (Date_now : nat → Z) (model : string) (reads : list string) (e : input_end) :
  delivered_text (fst (Messages.start JSON_parse Date_now model reads e))
  = carried_text (classify JSON_parse <$> lines_of "" reads)
  ∧ streamed_text (fst (Upstream.start JSON_parse Date_now model reads e))
    = carried_text (classify JSON_parse <$> lines_of "" reads).
Proof.
  unfold Messages.start, Upstream.start.
  pose proof (messages_on_lines_text Date_now model false
                (classify JSON_parse <$> lines_of "" reads)) as H1.
  pose proof (upstream_on_lines_text Date_now model 0
                (classify JSON_parse <$> lines_of "" reads)) as H2.
  destruct (Messages.on_lines _ _ _ _) as [out1 s1].
  destruct (Upstream.on_lines _ _ _ _) as [out2 s2].
  simpl in *. split.
  - by destruct e.
  - destruct e; simpl; [|done]. rewrite streamed_text_app. simpl.
    by rewrite append_empty_r.
Qed.

Lemma messages_on_lines_started Date_now model lines :
  Forall (λ ev, opens ev = false) (fst (Messages.on_lines Date_now model true lines))
  ∧ snd (Messages.on_lines Date_now model true lines) = true.
Proof.
  induction lines as [|line lines [IH1 IH2]]; [by split; [constructor|]|].
  cbn [Messages.on_lines].
  assert (Forall (λ ev, opens ev = false) (fst (Messages.on_line Date_now model true line))
          ∧ snd (Messages.on_line Date_now model true line) = true) as [H1 H2].
  { destruct line as [| | |g]; simpl; try (split; [constructor|done]).
    split; [|done]. apply Forall_app. split.
    - destruct (truthy (first_part_text g)); repeat constructor.
    - destruct (has_finish g); repeat constructor. }
  destruct (Messages.on_line Date_now model true line) as [out started'].
  simpl in H2. subst started'.
  destruct (Messages.on_lines Date_now model true lines) as [outs s'].
  simpl in *. split; [|done]. by apply Forall_app.
Qed.

Lemma messages_on_lines_opening Date_now model lines :
  (existsb is_data lines = false →
   Messages.on_lines Date_now model false lines = ([], false))
  ∧ (existsb is_data lines = true →
     ∃ rest, fst (Messages.on_lines Date_now model false lines)
             = Messages.message_start (Date_now 0%nat) model
               :: Messages.content_block_start :: rest
       ∧ Forall (λ ev, opens ev = false) rest).
Proof.
  induction lines as [|line lines [IH1 IH2]]; [by split|].
  cbn [Messages.on_lines existsb].
  destruct line as [| | |g]; simpl.
  1-3: split; intros H; [by rewrite IH1|];
       destruct (IH2 H) as (rest & Hr & Hf); exists rest;
       destruct (Messages.on_lines Date_now model false lines); simpl in *;
       by split.
  split; [done|]. intros _.
  destruct (messages_on_lines_started Date_now model lines) as [H1 _].
  destruct (Messages.on_lines Date_now model true lines) as [outs s']. simpl in *.
  eexists. split; [reflexivity|].
  rewrite <- app_assoc. apply Forall_app. split; [|apply Forall_app; split; [|done]].
  - destruct (truthy (first_part_text g)); repeat constructor.
  - destruct (has_finish g); repeat constructor.
Qed.

Lemma messages_on_line_deltas Date_now model started line t :
  Messages.content_block_delta t ∈ fst (Messages.on_line Date_now model started line) →
  t ≠ "".
Proof.
  destruct line as [| | |g]; simpl; try by intros ?%elem_of_nil.
  rewrite !elem_of_app. intros [H|[H|H]].
  - destruct started; [by apply elem_of_nil in H|].
    repeat (apply elem_of_cons in H as [H|H]; [done|]). by apply elem_of_nil in H.
  - destruct (truthy (first_part_text g)) eqn:E; [|by apply elem_of_nil in H].
    apply elem_of_cons in H as [[= ->]|H]; [|by apply elem_of_nil in H].
    intros E'. by rewrite E' in E.
  - destruct (has_finish g); [|by apply elem_of_nil in H].
    repeat (apply elem_of_cons in H as [H|H]; [done|]). by apply elem_of_nil in H.
Qed.

Lemma messages_on_lines_deltas Date_now model started lines t :
  Messages.content_block_delta t ∈ fst (Messages.on_lines Date_now model started lines) →
  t ≠ "".
Proof.
  revert started. induction lines as [|line lines IH]; intros started.
  { by intros ?%elem_of_nil. }
  cbn [Messages.on_lines].
  pose proof (messages_on_line_deltas Date_now model started line t) as H.
  destruct (Messages.on_line Date_now model started line) as [out started'].
  specialize (IH started').
  destruct (Messages.on_lines Date_now model started' lines) as [outs s'].
  simpl in *. rewrite elem_of_app. intros [?|?]; auto.
Qed.

(** The framing of a messages stream. If the upstream has no chunk that
    parses, nothing at all is emitted. Otherwise the stream begins with
    message_start and content_block_start, and neither event occurs again.
    No delta is ever empty. *)
Theorem messages_start_framing (JSON_parse : string → option Response)
    (Date_now : nat → Z) (model : string) (reads : list string) (e : input_end) :
  let lines := classify JSON_parse <$> lines_of "" reads in
  let out := fst (Messages.start JSON_parse Date_now model reads e) in
  (existsb is_data lines = false → out = [])
  ∧ (existsb is_data lines = true →
     ∃ rest, out = Messages.message_start (Date_now 0%nat) model
                   :: Messages.content_block_start :: rest
       ∧ Forall (λ ev, opens ev = false) rest)
  ∧ (∀ t, Messages.content_block_delta t ∈ out → t ≠ "").
Proof.
  intros lines out. subst out. unfold Messages.start. fold lines.
  destruct (messages_on_lines_opening Date_now model lines) as [H1 H2].
  pose proof (messages_on_lines_deltas Date_now model false lines) as H3.
  destruct (Messages.on_lines Date_now model false lines) as [out s'] eqn:E.
  simpl in *.
  assert (fst (match e with Eof => (out, Closed) | ReadFails => (out, Errored) end) = out)
    as -> by (by destruct e).
  split; [|split].
  - intros H. by injection (H1 H) as ->.
  - exact H2.
  - exact H3.
Qed.

Lemma messages_start_framing_witness :
  fst (Messages.start SampleStream.parse Sample.clock "m"
         [ (": ping" ++ SampleStream.nl ++ "data: {oops" ++ SampleStream.nl)%string ] Eof)
  = [].
Proof.
  apply (messages_start_framing SampleStream.parse Sample.clock "m"
           [ (": ping" ++ SampleStream.nl ++ "data: {oops" ++ SampleStream.nl)%string ] Eof).
  reflexivity.
Defined.

Lemma upstream_on_lines_done Date_now model reads lines :
  length (List.filter is_done (fst (Upstream.on_lines Date_now model reads lines)))
  = length (List.filter is_sentinel lines).
Proof.
  revert reads. induction lines as [|line lines IH]; intros reads; [done|].
  cbn [Upstream.on_lines].
  assert (length (List.filter is_done (fst (Upstream.on_line Date_now model reads line)))
          = length (List.filter is_sentinel [line])) as H.
  { destruct line as [| | |g]; try done. simpl.
    by destruct (truthy (first_part_text g)), (has_finish g). }
  destruct (Upstream.on_line Date_now model reads line) as [out reads'].
  specialize (IH reads').
  destruct (Upstream.on_lines Date_now model reads' lines) as [outs s'].
  simpl in *. rewrite List.filter_app, length_app, H, IH.
  by destruct (is_sentinel line).
Qed.

(** The terminators of a chat-completion stream. When the upstream ends,
    the stream is closed after a last [DONE] line, and it holds one [DONE]
    line more than the upstream has sentinels, so two when the upstream
    sends its own. When reading the upstream fails, the stream is put in
    error, and no [DONE] line is added. *)
Theorem upstream_start_terminators (JSON_parse : string → option Response)
    (Date_now : nat → Z) (model : string) (reads : list string) :
  let sentinels :=
    length (List.filter is_sentinel (classify JSON_parse <$> lines_of "" reads)) in
  (∃ body, Upstream.start JSON_parse Date_now model reads Eof
           = (body ++ [Upstream.DoneLine], Closed)
     ∧ length (List.filter is_done body) = sentinels)
  ∧ (∃ body, Upstream.start JSON_parse Date_now model reads ReadFails = (body, Errored)
       ∧ length (List.filter is_done body) = sentinels).
Proof.
  intros sentinels. subst sentinels. unfold Upstream.start.
  pose proof (upstream_on_lines_done Date_now model 0
                (classify JSON_parse <$> lines_of "" reads)) as H.
  destruct (Upstream.on_lines _ _ _ _) as [out s']. simpl in H.
  split; exists out; by split.
Qed.

End Framing.

(** * Properties of the model table *)

Section Models.
Import ModelMapping.

Lemma default_values name d :
  own DEFAULT_MAPPINGS name = Some d →
  truthy d = true
  ∧ (own DEFAULT_MAPPINGS d = Some d
     ∨ own DEFAULT_MAPPINGS d = None ∧ inherited d = false).
Proof.
  unfold DEFAULT_MAPPINGS. simpl.
  repeat match goal with
         | |- context [String.eqb name ?k] =>
             destruct (String.eqb name k);
             [intros [= <-]; split; [reflexivity|]; vm_compute; auto|]
         end.
  done.
Qed.

Lemma loaded_table env st :
  customMappings st = [] ∨ customMappings st = table_of env →
  customMappings (if (length (customMappings st) =? 0)%nat
                  then loadCustomMappings env st else st) = table_of env.
Proof.
  intros [H|H]; rewrite H.
  - simpl. by destruct env.
  - destruct (length (table_of env) =? 0)%nat eqn:E; [|done].
    destruct env as [| |kvs]; try done.
Qed.

(** The cases of lines 63-78. *)
Lemma mapModel_resolves (env : blob) (st : State) (name : string) :
  customMappings st = [] ∨ customMappings st = table_of env →
  let r := fst (mapModel env st name) in
  customMappings (snd (mapModel env st name)) = table_of env
  ∧ (∀ v, own (table_of env) name = Some v → truthy v = true → r = Str v)
  ∧ (own (table_of env) name = None → inherited name = false →
     (∀ d, own DEFAULT_MAPPINGS name = Some d → r = Str d)
     ∧ (own DEFAULT_MAPPINGS name = None → r = Str name))
  ∧ (own (table_of env) name = None → inherited name = true → r = Inherited name).
Proof.
  intros Hst. pose proof (loaded_table env st Hst) as Ht.
  unfold mapModel.
  set (st1 := if (length (customMappings st) =? 0)%nat
              then loadCustomMappings env st else st) in *.
  rewrite Ht. unfold get. cbv zeta.
  pose proof (default_values name) as Hdv.
  destruct (own DEFAULT_MAPPINGS name) as [d|]; [destruct (Hdv d eq_refl) as [Hd _]|];
    clear Hdv.
  - destruct (own (table_of env) name) as [[|c v]|], d as [|c' d], (inherited name);
      try done; cbn [fst snd]; (split; [done|]);
      repeat split; intros; simplify_eq; done.
  - destruct (own (table_of env) name) as [[|c v]|], (inherited name);
      cbn [fst snd]; (split; [done|]);
      repeat split; intros; simplify_eq; done.
Qed.

(** The resolution of a model name depends on the environment only, not on
    whether the table of overrides has been loaded before. An override
    with a non-empty value wins. Without an override, a name of the
    built-in table gets its entry, and any other name comes back unchanged,
    unless it is one of the names that every object inherits: for these
    the result is not a string. Afterwards the table of overrides is that
    of the environment, empty when its text does not parse. *)
Theorem mapModel_resolution (env : blob) (st : State) (name : string) :
  customMappings st = [] ∨ customMappings st = table_of env →
  let r := fst (mapModel env st name) in
  customMappings (snd (mapModel env st name)) = table_of env
  ∧ (∀ v, own (table_of env) name = Some v → truthy v = true → r = Str v)
  ∧ (own (table_of env) name = None → inherited name = false →
     (∀ d, own DEFAULT_MAPPINGS name = Some d → r = Str d)
     ∧ (own DEFAULT_MAPPINGS name = None → r = Str name))
  ∧ (own (table_of env) name = None → inherited name = true → r = Inherited name).
Proof. apply mapModel_resolves. Qed.

Lemma mapModel_resolution_witness :
  fst (mapModel (EnvTable [("gpt-4", "gemini-2.0-flash-exp")]) initial "gpt-4")
  = Str "gemini-2.0-flash-exp".
Proof.
  destruct (mapModel_resolution (EnvTable [("gpt-4", "gemini-2.0-flash-exp")])
              initial "gpt-4") as (_ & H & _); [by left|].
  apply H; reflexivity.
Defined.

(** Without overrides, resolving a name twice is resolving it once: every
    entry of the built-in table leads to a name that resolves to itself. *)
Theorem mapModel_idempotent (env : blob) (st : State) (name : string) :
  table_of env = [] → customMappings st = [] → inherited name = false →
  ∃ m, fst (mapModel env st name) = Str m
    ∧ fst (mapModel env (snd (mapModel env st name)) m) = Str m.
Proof.
  intros Henv Hst Hname.
  assert (∀ st' n, customMappings st' = [] → inherited n = false →
            fst (mapModel env st' n) = Str (default n (own DEFAULT_MAPPINGS n))
            ∧ customMappings (snd (mapModel env st' n)) = []) as H.
  { intros st' n Hst' Hn.
    destruct (mapModel_resolves env st' n) as (H1 & _ & H2 & _); [by left|].
    rewrite Henv in *. split; [|done].
    destruct (H2 eq_refl Hn) as [H3 H4].
    destruct (own DEFAULT_MAPPINGS n) as [d|]; simpl; auto. }
  destruct (H st name Hst Hname) as [H1 H2].
  eexists. split; [exact H1|].
  destruct (own DEFAULT_MAPPINGS name) as [d|] eqn:Hd; simpl.
  - destruct (default_values name d Hd) as [_ [Hdd|[Hdd Hi]]].
    + assert (inherited d = false) as Hi.
      { revert Hd. unfold DEFAULT_MAPPINGS. simpl.
        repeat match goal with
               | |- context [String.eqb name ?k] =>
                   destruct (String.eqb name k); [by intros [= <-]|]
               end.
        done. }
      destruct (H _ d H2 Hi) as [-> _]. by rewrite Hdd.
    + destruct (H _ d H2 Hi) as [-> _]. by rewrite Hdd.
  - destruct (H _ name H2 Hname) as [-> _]. by rewrite Hd.
Qed.

Lemma mapModel_idempotent_witness :
  ∃ m, fst (mapModel EnvUnset initial "dall-e-3") = Str m
    ∧ fst (mapModel EnvUnset (snd (mapModel EnvUnset initial "dall-e-3")) m) = Str m.
Proof.
  apply (mapModel_idempotent EnvUnset initial "dall-e-3"); reflexivity.
Defined.

Lemma existsb_eqb_elem (x : string) (l : list string) :
  existsb (String.eqb x) l = true ↔ x ∈ l.
Proof.
  induction l as [|y l IH]; simpl; [by rewrite elem_of_nil|].
  rewrite orb_true_iff, IH, elem_of_cons, String.eqb_eq. done.
Qed.

Lemma add_all_spec seen l :
  NoDup seen →
  NoDup (add_all seen l)
  ∧ (∀ x, x ∈ add_all seen l ↔ x ∈ seen ∨ x ∈ l)
  ∧ seen `prefix_of` add_all seen l.
Proof.
  revert seen. induction l as [|y l IH]; intros seen Hnd; simpl.
  { split; [done|]. split; [|done]. intros x. rewrite elem_of_nil. tauto. }
  destruct (existsb (String.eqb y) seen) eqn:E.
  - apply existsb_eqb_elem in E. destruct (IH seen Hnd) as (H1 & H2 & H3).
    split; [done|]. split; [|done].
    intros x. rewrite H2, elem_of_cons. split; [tauto|].
    intros [?|[->|?]]; auto.
  - assert (y ∉ seen) as Hy.
    { intros Hin. apply existsb_eqb_elem in Hin. congruence. }
    destruct (IH (seen ++ [y])) as (H1 & H2 & H3).
    { apply NoDup_app. split; [done|]. split; [|apply NoDup_singleton].
      intros x Hx ->%list_elem_of_singleton. done. }
    split; [done|]. split.
    + intros x. rewrite H2, elem_of_app, !elem_of_cons, elem_of_nil. tauto.
    + etrans; [|exact H3]. by apply prefix_app_r.
Qed.

(** The list of models: the twelve fixed names come first, in their order,
    then the names of the overrides loaded so far that are not among them;
    no name is listed twice; each entry is a 'model' owned by
    'antigravity-proxy'. *)
Theorem getAvailableModels_ids (st : State) :
  let ids := id <$> getAvailableModels st in
  NoDup ids
  ∧ (∀ x, x ∈ ids ↔ x ∈ listed ∨ x ∈ (fst <$> customMappings st))
  ∧ listed `prefix_of` ids
  ∧ Forall (λ m, object m = "model" ∧ created m = 1677610602
                 ∧ owned_by m = "antigravity-proxy") (getAvailableModels st).
Proof.
  unfold getAvailableModels. cbv zeta.
  rewrite <- list_fmap_compose.
  assert (∀ l : list string, (id ∘ (λ x, {| id := x; object := "model";
              created := 1677610602; owned_by := "antigravity-proxy" |})) <$> l = l)
    as -> by (intros l; induction l; [done|]; simpl; by f_equal).
  destruct (add_all_spec [] (listed ++ (fst <$> customMappings st)))
    as (H1 & H2 & _); [constructor|].
  split; [done|]. split; [|split].
  - intros x. rewrite H2, elem_of_nil, elem_of_app. tauto.
  - assert (∀ l, add_all [] (listed ++ l) = add_all listed l) as -> by reflexivity.
    apply add_all_spec. unfold listed.
    repeat (apply NoDup_cons; split; [by compute; intros H; repeat
      (apply elem_of_cons in H as [H|H]; [done|]); apply elem_of_nil in H|]).
    constructor.
  - apply Forall_fmap, Forall_forall. done.
Qed.

End Models.

(** * Properties of the key check *)

Section Key.
Import Auth.

(** A request is let in exactly when it has a non-empty Authorization
    header that matches the Bearer pattern, a key is configured, and the
    text the pattern captures is that key; in particular nobody is let in
    while no key is configured. A request that is turned away always gets a
    non-empty message, which is what the handlers hand on to
    unauthorizedResponse. *)
Theorem validateApiKey_lets_in (bearer : string → option string)
    (authHeader PROXY_API_KEY : option string) :
  let r := fst (validateApiKey bearer authHeader PROXY_API_KEY) in
  (valid r = true ↔
   ∃ header key, authHeader = Some header ∧ header ≠ "" ∧ bearer header = Some key
                 ∧ PROXY_API_KEY = Some key ∧ key ≠ "")
  ∧ (valid r = true → error r = None)
  ∧ (valid r = false → ∃ m, error r = Some m ∧ m ≠ ""
                            ∧ status (unauthorizedResponse m) = 401
                            ∧ message (unauthorizedResponse m) = m).
Proof.
  cbv zeta. unfold validateApiKey.
  destruct authHeader as [[|c h]|]; simpl;
    [| destruct (bearer (String c h)) as [k|] eqn:Hb;
       [ destruct PROXY_API_KEY as [[|c' e]|]; simpl;
         [| destruct (String.eqb_spec k (String c' e)) as [->|Hne]; simpl |]
       | ]
     | ].
  all: split;
    [ split;
      [ intros ?; first [done | by exists (String c h), (String c' e)]
      | intros (? & ? & ? & ? & ? & ? & ?); simplify_eq; done ]
    | split; [done|]; intros ?; first [done | eexists; repeat split; done] ].
Qed.

End Key.

(** * Properties of the chat-completion request translator *)

Section Requests.
Import Upstream.

Lemma fold_convert_step messages sys contents :
  fold_left convert_step messages (sys, contents)
  = (match last (List.filter is_system messages) with
     | Some m => Some (system_text (content m))
     | None => sys
     end,
     contents ++ (convert_turn <$> List.filter (λ m, negb (is_system m)) messages)).
Proof.
  revert sys contents. induction messages as [|m messages IH]; intros sys contents.
  { simpl. by rewrite app_nil_r. }
  cbn [fold_left List.filter]. unfold convert_step at 2. fold (is_system m).
  destruct (is_system m) eqn:E; cbn [negb]; rewrite IH.
  - rewrite last_cons. by destruct (last (List.filter is_system messages)).
  - by rewrite fmap_cons, <- app_assoc.
Qed.

(** The contents of the translated request are the messages that are not
    system messages, in their order, each with the role 'model' or 'user';
    a message with a plain text keeps it as its only part. The system
    instruction is the text of the last system message, and there is none
    when there is no system message. *)
Theorem convertMessages_structure (messages : list ChatMessage) :
  fst (convertMessages messages)
  = convert_turn <$> List.filter (λ m, negb (is_system m)) messages
  ∧ snd (convertMessages messages)
    = (λ m, system_text (content m)) <$> last (List.filter is_system messages)
  ∧ Forall (λ c, g_role c = "user" ∨ g_role c = "model") (fst (convertMessages messages))
  ∧ (∀ m s, content m = Plain s → g_parts (convert_turn m) = [TextPart s]).
Proof.
  unfold convertMessages. rewrite fold_convert_step. cbn [fst snd app].
  split; [done|]. split; [by destruct (last _)|]. split.
  - apply Forall_fmap, Forall_forall. intros m _. unfold convert_turn. simpl.
    destruct (String.eqb (role m) "assistant"); auto.
  - intros m s H. unfold convert_turn. by rewrite H.
Qed.

Lemma lacks_app c a b : lacks c (a ++ b)%string = lacks c a && lacks c b.
Proof.
  induction a as [|x a IH]; [done|].
  rewrite append_cons. simpl. rewrite IH. by rewrite andb_assoc.
Qed.

Lemma split_at_lacks sep s : lacks sep s = true → split_at sep s = [s].
Proof.
  induction s as [|x s IH]; [done|]. simpl.
  intros [Hx Hs]%andb_true_iff. apply negb_true_iff in Hx. rewrite Hx.
  by rewrite IH.
Qed.

Lemma split_at_app sep a b :
  lacks sep a = true → split_at sep (a ++ String sep b) = a :: split_at sep b.
Proof.
  induction a as [|x a IH].
  - intros _. change ("" ++ String sep b)%string with (String sep b). simpl.
    by rewrite Ascii.eqb_refl.
  - rewrite append_cons. simpl. intros [Hx Hs]%andb_true_iff.
    apply negb_true_iff in Hx. rewrite Hx. by rewrite IH.
Qed.

Lemma substring_all s : String.substring 0 (String.length s) s = s.
Proof. induction s as [|x s IH]; [done|]. simpl. by rewrite IH. Qed.

Lemma run_to_semicolon_app a b :
  lacks semicolon a = true → run_to_semicolon (a ++ String semicolon b) = a.
Proof.
  induction a as [|x a IH].
  - intros _. reflexivity.
  - rewrite append_cons. simpl. intros [Hx Hs]%andb_true_iff.
    apply negb_true_iff in Hx. rewrite Hx. by rewrite IH.
Qed.

Lemma match_data_here h :
  String.prefix "data:" h = true →
  truthy (run_to_semicolon (String.substring 5 (String.length h - 5) h)) = true →
  match_data h = Some (run_to_semicolon (String.substring 5 (String.length h - 5) h)).
Proof.
  intros H1 H2. destruct h as [|c h]; [done|].
  set (r := run_to_semicolon _) in *.
  change (match_data (String c h))
    with (match (if String.prefix "data:" (String c h)
                 then if truthy r then Some r else None else None) with
          | Some run => Some run
          | None => match_data h
          end).
  by rewrite H1, H2.
Qed.

Lemma substring_drop p y :
  String.substring (String.length p) (String.length (p ++ y) - String.length p) (p ++ y)
  = y.
Proof.
  induction p as [|c p IH].
  - change ("" ++ y)%string with y. simpl String.length.
    by rewrite Nat.sub_0_r, substring_all.
  - rewrite append_cons.
    change (String.length (String c (p ++ y)) - String.length (String c p))%nat
      with (String.length (p ++ y) - String.length p)%nat.
    rewrite <- IH at 3.
    simpl String.length. by destruct (String.length (p ++ y) - String.length p)%nat.
Qed.

Lemma prefix_append p y : String.prefix p (p ++ y) = true.
Proof.
  induction p as [|c p IH].
  - by destruct y.
  - rewrite append_cons. simpl. by destruct (Ascii.ascii_dec c c).
Qed.

(** Images. A part whose URL is a data URI, 'data:' then a media type, a
    semicolon, 'base64', a comma and the data, becomes one inline part with
    that media type and that data, provided the media type is not empty and
    holds neither semicolon nor comma, and the data holds no comma. A part
    whose URL does not begin with 'data:' is dropped. *)
Theorem convert_part_image (mime payload : string) :
  mime ≠ "" → lacks semicolon mime = true → lacks comma mime = true →
  lacks comma payload = true →
  convert_part (image_part ("data:" ++ mime ++ ";base64," ++ payload))
  = [InlineData mime (Some payload)]
  ∧ ∀ url, String.prefix "data:" url = false → convert_part (image_part url) = [].
Proof.
  intros Hne Hsemi Hcomma Hpay. split.
  2: { intros url H. unfold convert_part, image_part. simpl.
       rewrite H. by destruct (truthy url). }
  set (header := ("data:" ++ mime ++ ";base64")%string).
  assert (("data:" ++ mime ++ ";base64," ++ payload)%string
          = (header ++ String comma payload)%string) as ->.
  { unfold header. rewrite !append_assoc. reflexivity. }
  assert (lacks comma header = true) as Hh.
  { unfold header. rewrite !lacks_app, Hcomma. reflexivity. }
  assert (∀ x, (header ++ x)%string = ("data:" ++ (mime ++ ";base64" ++ x))%string) as Hx.
  { intros x. unfold header. rewrite !append_assoc. reflexivity. }
  unfold convert_part, image_part. cbn [part_type part_text image_url].
  change (String.eqb "image_url" "text") with false.
  change (String.eqb "image_url" "image_url") with true.
  cbn [andb truthy_opt or_empty default]. unfold id.
  assert (truthy (header ++ String comma payload) = true) as ->
    by (rewrite Hx; vm_compute; reflexivity).
  assert (String.prefix "data:" (header ++ String comma payload) = true) as ->
    by (rewrite Hx; apply prefix_append).
  rewrite split_at_app, split_at_lacks by done. cbn [nth lookup list_lookup].
  assert (match_data header = Some mime) as ->; [|done].
  assert (String.substring 5 (String.length header - 5) header
          = (mime ++ String semicolon "base64")%string) as Hs.
  { apply (substring_drop "data:" (mime ++ String semicolon "base64")). }
  rewrite match_data_here.
  - by rewrite Hs, run_to_semicolon_app.
  - apply prefix_append.
  - rewrite Hs, run_to_semicolon_app by done. by destruct mime.
Qed.

Lemma convert_part_image_witness :
  convert_part (image_part "data:image/png;base64,iVBORw0KGgo=")
  = [InlineData "image/png" (Some "iVBORw0KGgo=")].
Proof.
  apply (convert_part_image "image/png" "iVBORw0KGgo="); [discriminate|reflexivity..].
Defined.

(** A data URI with no media type gets 'image/jpeg', and one with no comma
    has no data. *)
Example convert_part_defaults :
  convert_part (image_part "data:;base64,AAAA") = [InlineData "image/jpeg" (Some "AAAA")]
  ∧ convert_part (image_part "data:image/gif") = [InlineData "image/gif" None].
Proof. split; reflexivity. Qed.

End Requests.

(** * The handlers and the pool together *)

Section NoCredential.
Import TokenManager.

(** With no enabled account in the list, a request with a valid key and a
    body that passes the checks is answered, once getToken has run on the
    empty pool, with the protocol's own "no credential" reply: status 503
    and a server_error by the chat-completion handler, status 529 and an
    overloaded_error by the messages handler. Nothing is sent upstream. *)
Theorem no_enabled_account_replies (w : World) (l : list Account) (st : State)
    (fuel : nat) (auth : Auth.AuthResult) (mapModel : option string → option string)
    (chat : Upstream.ChatCompletionRequest) (m : Upstream.ChatMessage)
    (ms : list Upstream.ChatMessage) (claude : Messages.ClaudeRequest) :
  ACCOUNTS_JSON w = EnvArray (Obj <$> l) →
  filter (λ a, enabled a = true) l = [] → accounts st = [] →
  Auth.valid auth = true →
  truthy_opt (Upstream.req_model chat) = true →
  Upstream.req_messages chat = Some (m :: ms) →
  ∃ tokenResult,
    fst (getToken (S fuel) w st) = Resolved tokenResult
    ∧ ChatCompletions.POST auth (Some chat) tokenResult
      = ChatCompletions.Reply 503
          {| ChatCompletions.error_message :=
               "No available accounts. Please configure ACCOUNTS_JSON.";
             ChatCompletions.error_type := "server_error" |}
    ∧ Messages.POST mapModel auth (Some claude) tokenResult
      = Messages.Reply 529
          {| Messages.error_type := "overloaded_error";
             Messages.error_message := "No available accounts" |}.
Proof.
  intros Hblob Hnil Hst Hv Hm Hms. exists None.
  destruct (getToken_empty_list w l fuel st Hblob Hnil Hst) as (-> & _).
  split; [done|].
  unfold ChatCompletions.POST, Messages.POST. by rewrite Hv, Hm, Hms.
Qed.

Lemma no_enabled_account_replies_witness :
  ∃ tokenResult,
    fst (getToken 1 (Sample.world_of (EnvArray []) Sample.granted) initial)
    = Resolved tokenResult
    ∧ ChatCompletions.POST SampleStream.key_ok (Some SampleStream.openai_hi) tokenResult
      = ChatCompletions.Reply 503
          {| ChatCompletions.error_message :=
               "No available accounts. Please configure ACCOUNTS_JSON.";
             ChatCompletions.error_type := "server_error" |}
    ∧ Messages.POST (λ o, o) SampleStream.key_ok (Some SampleStream.claude_no_model)
        tokenResult
      = Messages.Reply 529
          {| Messages.error_type := "overloaded_error";
             Messages.error_message := "No available accounts" |}.
Proof.
  apply (no_enabled_account_replies (Sample.world_of (EnvArray []) Sample.granted)
           [] initial 0 SampleStream.key_ok (λ o, o) SampleStream.openai_hi
           {| Upstream.role := "user"; Upstream.content := Upstream.Plain "Hi" |} []);
    reflexivity.
Defined.

End NoCredential.
